(** * Page-language determination and the web-contents modal dialog manager

    A shallow embedding of two decision procedures of the code base:

    - [components/web_modal/web_contents_modal_dialog_manager.cc]: the queue
      of modal dialogs attached to one WebContents (module [web_modal]);
    - [chrome/common/translate/language_detection_util.cc]: the correction,
      validation and arbitration of page language codes (module
      [LanguageDetectionUtil]).

    The definitions of both come first, then the properties. *)

From Stdlib Require Import String.
From Stdlib Require Import List Bool Arith ZArith Lia Ascii.
Import ListNotations.
(* [length] is the length of lists throughout. *)
Import Corelib.Init.Datatypes.

Set Implicit Arguments.

(* ===================================================================== *)
(** * web_modal::WebContentsModalDialogManager *)
(* ===================================================================== *)

Module web_modal.

(** [NativeWebContentsModalDialog] is a native view handle; the manager only
    compares handles for identity, so a handle is its address. *)
Definition NativeWebContentsModalDialog := Z.

(** [struct DialogState]; the constructor clears the flag. *)
Record DialogState := mkDialogState {
  dialog : NativeWebContentsModalDialog;
  prevent_close_on_load_start : bool
}.

Definition DialogState_new (d : NativeWebContentsModalDialog) : DialogState :=
  mkDialogState d false.

(** The data members the methods read and write.  [delegate_] records whether
    the delegate pointer is non-NULL. *)
Record Manager := mkManager {
  delegate_ : bool;
  child_dialogs_ : list DialogState;
  closing_all_dialogs_ : bool
}.

(** State left by the constructor (the delegate is attached by the embedder). *)
Definition initial (delegate : bool) : Manager := mkManager delegate [] false.

Definition handles (m : Manager) : list NativeWebContentsModalDialog :=
  map dialog (child_dialogs_ m).

(** What [web_contents()] returns: the attached WebContents, of which only the
    presence of a RenderViewHost matters here. *)
Record WebContents := mkWebContents { GetRenderViewHost : bool }.

(** The surroundings of one call: whether DCHECKs are compiled in, what
    [web_contents()] yields (None for NULL), and what the delegate answers to
    [IsWebContentsVisible]. *)
Record Env := mkEnv {
  dcheck_is_on : bool;
  web_contents : option WebContents;
  IsWebContentsVisible : bool
}.

(** Calls issued to the collaborators: the native manager (platform adapter),
    the render view host and the delegate. *)
Inductive Call :=
| NativeManager_ManageDialog (d : NativeWebContentsModalDialog)
| NativeManager_ShowDialog (d : NativeWebContentsModalDialog)
| NativeManager_HideDialog (d : NativeWebContentsModalDialog)
| NativeManager_CloseDialog (d : NativeWebContentsModalDialog)
| NativeManager_FocusDialog (d : NativeWebContentsModalDialog)
| RenderViewHost_SetIgnoreInputEvents (blocked : bool)
| Delegate_SetWebContentsBlocked (blocked : bool).

(** Ways a call can fail to return: a DCHECK that fires, the use of an
    iterator or reference into the deque that designates no element, and a
    loop that has not finished within the fuel it was given. *)
Inductive Fault := DcheckFailure | InvalidDereference | OutOfFuel.

Inductive Result (A : Type) :=
| Ok (a : A)
| Abort (f : Fault).
Arguments Abort {A} f.

(** ** The monad of the methods: environment, manager state, call trace,
    faults. *)

Definition M (A : Type) : Type :=
  Env -> Manager -> Result (A * Manager * list Call).

Definition ret {A} (a : A) : M A := fun _ m => Ok (a, m, []).

Definition bind {A B} (c : M A) (k : A -> M B) : M B :=
  fun e m =>
    match c e m with
    | Ok (a, m1, t1) =>
        match k a e m1 with
        | Ok (b, m2, t2) => Ok (b, m2, t1 ++ t2)
        | Abort f => Abort f
        end
    | Abort f => Abort f
    end.

Declare Scope manager_scope.
Delimit Scope manager_scope with M.
Notation "x <- c ;; k" := (bind c (fun x => k))
  (at level 61, c at next level, right associativity) : manager_scope.
Notation "c ;; k" := (bind c (fun _ => k))
  (at level 61, right associativity) : manager_scope.
Local Open Scope manager_scope.

Definition gets {A} (f : Manager -> A) : M A := fun _ m => Ok (f m, m, []).
Definition asks {A} (f : Env -> A) : M A := fun e m => Ok (f e, m, []).
Definition modify (f : Manager -> Manager) : M unit := fun _ m => Ok (tt, f m, []).
Definition call (c : Call) : M unit := fun _ m => Ok (tt, m, [c]).
Definition abort {A} (f : Fault) : M A := fun _ _ => Abort f.
Definition when (b : bool) (c : M unit) : M unit := if b then c else ret tt.

(** [DCHECK(cond)]: fatal when DCHECKs are compiled in, absent otherwise. *)
Definition DCHECK (cond : bool) : M unit :=
  on <- asks dcheck_is_on ;;
  if on && negb cond then abort DcheckFailure else ret tt.

Definition run {A} (c : M A) (e : Env) (m : Manager) := c e m.

(** ** Deque primitives *)

Definition set_child_dialogs (l : list DialogState) (m : Manager) : Manager :=
  mkManager (delegate_ m) l (closing_all_dialogs_ m).

Definition set_closing_all_dialogs (b : bool) (m : Manager) : Manager :=
  mkManager (delegate_ m) (child_dialogs_ m) b.

Definition push_back (s : DialogState) (m : Manager) : Manager :=
  set_child_dialogs (child_dialogs_ m ++ [s]) m.

(** [erase(i)]: the element at position [i] is removed. *)
Fixpoint erase (i : nat) (l : list DialogState) : list DialogState :=
  match l, i with
  | [], _ => []
  | _ :: l', O => l'
  | s :: l', S i' => s :: erase i' l'
  end.

(** [i->prevent_close_on_load_start = v] at a position that designates an
    element. *)
Fixpoint set_prevent_at (i : nat) (v : bool) (l : list DialogState)
  : list DialogState :=
  match l, i with
  | [], _ => []
  | s :: l', O => mkDialogState (dialog s) v :: l'
  | s :: l', S i' => s :: set_prevent_at i' v l'
  end.

(** ** The methods *)

(** [FindDialogState]: the iterator is a position; [end()] is the length. *)
Fixpoint find_from (l : list DialogState) (d : NativeWebContentsModalDialog)
  : nat :=
  match l with
  | [] => O
  | s :: l' => if Z.eqb (dialog s) d then O else S (find_from l' d)
  end.

Definition FindDialogState (d : NativeWebContentsModalDialog) : M nat :=
  l <- gets child_dialogs_ ;;
  ret (find_from l d).

Definition BlockWebContentsInteraction (blocked : bool) : M unit :=
  contents <- asks web_contents ;;
  match contents with
  | None => ret tt
  | Some c =>
      when (GetRenderViewHost c)
           (call (RenderViewHost_SetIgnoreInputEvents blocked)) ;;
      d <- gets delegate_ ;;
      when d (call (Delegate_SetWebContentsBlocked blocked))
  end.

Definition ShowDialog (d : NativeWebContentsModalDialog) : M unit :=
  modify (push_back (DialogState_new d)) ;;
  call (NativeManager_ManageDialog d) ;;
  l <- gets child_dialogs_ ;;
  if Nat.eqb (length l) 1 then
    has_delegate <- gets delegate_ ;;
    visible <- asks IsWebContentsVisible ;;
    when (has_delegate && visible) (call (NativeManager_ShowDialog d)) ;;
    BlockWebContentsInteraction true
  else ret tt.

Definition IsShowingDialog : M bool :=
  l <- gets child_dialogs_ ;;
  ret (negb (Nat.eqb (length l) 0)).

(** [child_dialogs_.front()], undefined on an empty deque. *)
Definition front : M DialogState :=
  l <- gets child_dialogs_ ;;
  match l with
  | [] => abort InvalidDereference
  | s :: _ => ret s
  end.

Definition FocusTopmostDialog : M unit :=
  l <- gets child_dialogs_ ;;
  DCHECK (negb (Nat.eqb (length l) 0)) ;;
  s <- front ;;
  call (NativeManager_FocusDialog (dialog s)).

(** The assignment stores the constant [true]; the parameter [prevent] is not
    read.  Writing through [end()] designates no element. *)
Definition SetPreventCloseOnLoadStart
    (d : NativeWebContentsModalDialog) (prevent : bool) : M unit :=
  loc <- FindDialogState d ;;
  l <- gets child_dialogs_ ;;
  DCHECK (negb (Nat.eqb loc (length l))) ;;
  if Nat.eqb loc (length l) then abort InvalidDereference
  else modify (set_child_dialogs (set_prevent_at loc true l)).

Definition WillClose (d : NativeWebContentsModalDialog) : M unit :=
  i <- FindDialogState d ;;
  l <- gets child_dialogs_ ;;
  if Nat.eqb i (length l) then ret tt
  else
    let removed_topmost_dialog := Nat.eqb i 0 in
    modify (set_child_dialogs (erase i l)) ;;
    l' <- gets child_dialogs_ ;;
    closing <- gets closing_all_dialogs_ ;;
    match l' with
    | s :: _ =>
        when (removed_topmost_dialog && negb closing)
             (call (NativeManager_ShowDialog (dialog s)))
    | [] => ret tt
    end ;;
    BlockWebContentsInteraction (negb (Nat.eqb (length l') 0)).

(** [native_manager_->CloseDialog(dialog)]: the request is issued and the
    platform dialog, closing, notifies the manager through [WillClose] before
    the request returns. *)
Definition native_manager_CloseDialog (d : NativeWebContentsModalDialog)
  : M unit :=
  call (NativeManager_CloseDialog d) ;;
  WillClose d.

Inductive Notification :=
| NOTIFICATION_WEB_CONTENTS_VISIBILITY_CHANGED (visible : bool)
| NOTIFICATION_LOAD_START
| NOTIFICATION_other.

Definition Observe (type : Notification) : M unit :=
  match type with
  | NOTIFICATION_WEB_CONTENTS_VISIBILITY_CHANGED visible =>
      l <- gets child_dialogs_ ;;
      match l with
      | [] => ret tt
      | s :: _ =>
          if visible then call (NativeManager_ShowDialog (dialog s))
          else call (NativeManager_HideDialog (dialog s))
      end
  | NOTIFICATION_LOAD_START =>
      l <- gets child_dialogs_ ;;
      match l with
      | s :: _ =>
          if negb (prevent_close_on_load_start s)
          then native_manager_CloseDialog (dialog s)
          else ret tt
      | [] => ret tt
      end
  | NOTIFICATION_other => ret tt
  end.

(** [while (!child_dialogs_.empty()) native_manager_->CloseDialog(front)]:
    one unit of fuel per iteration. *)
Fixpoint close_while_not_empty (fuel : nat) : M unit :=
  l <- gets child_dialogs_ ;;
  match l with
  | [] => ret tt
  | s :: _ =>
      match fuel with
      | O => abort OutOfFuel
      | S fuel' =>
          native_manager_CloseDialog (dialog s) ;;
          close_while_not_empty fuel'
      end
  end.

Definition CloseAllDialogs (fuel : nat) : M unit :=
  modify (set_closing_all_dialogs true) ;;
  close_while_not_empty fuel ;;
  modify (set_closing_all_dialogs false).

Definition DidGetIgnoredUIEvent : M unit :=
  l <- gets child_dialogs_ ;;
  match l with
  | s :: _ => call (NativeManager_FocusDialog (dialog s))
  | [] => ret tt
  end.

Definition WebContentsDestroyed (fuel : nat) : M unit :=
  CloseAllDialogs fuel.

(** ** Sequences of operations *)

Inductive Op :=
| op_ShowDialog (d : NativeWebContentsModalDialog)
| op_FocusTopmostDialog
| op_SetPreventCloseOnLoadStart (d : NativeWebContentsModalDialog) (prevent : bool)
| op_WillClose (d : NativeWebContentsModalDialog)
| op_Observe (type : Notification)
| op_CloseAllDialogs (fuel : nat)
| op_DidGetIgnoredUIEvent
| op_WebContentsDestroyed (fuel : nat).

Definition exec (op : Op) : M unit :=
  match op with
  | op_ShowDialog d => ShowDialog d
  | op_FocusTopmostDialog => FocusTopmostDialog
  | op_SetPreventCloseOnLoadStart d prevent => SetPreventCloseOnLoadStart d prevent
  | op_WillClose d => WillClose d
  | op_Observe type => Observe type
  | op_CloseAllDialogs fuel => CloseAllDialogs fuel
  | op_DidGetIgnoredUIEvent => DidGetIgnoredUIEvent
  | op_WebContentsDestroyed fuel => WebContentsDestroyed fuel
  end.

(** States reachable from a freshly constructed manager by operations that
    return. *)
Inductive reachable : Manager -> Prop :=
| reachable_initial delegate : reachable (initial delegate)
| reachable_step m op e m' t :
    reachable m -> run (exec op) e m = Ok (tt, m', t) -> reachable m'.

(** An operation that does not show a dialog already in the queue. *)
Definition shows_fresh (op : Op) (m : Manager) : Prop :=
  match op with
  | op_ShowDialog d => ~ In d (handles m)
  | _ => True
  end.

(** States reachable when [ShowDialog] is only ever called with a dialog that
    is not queued. *)
Inductive reachable_fresh : Manager -> Prop :=
| reachable_fresh_initial delegate : reachable_fresh (initial delegate)
| reachable_fresh_step m op e m' t :
    reachable_fresh m -> shows_fresh op m ->
    run (exec op) e m = Ok (tt, m', t) -> reachable_fresh m'.

(** ** Reading a call trace *)

Definition is_native_show (c : Call) : bool :=
  match c with NativeManager_ShowDialog _ => true | _ => false end.

Definition is_native_close (c : Call) : bool :=
  match c with NativeManager_CloseDialog _ => true | _ => false end.

(** Whether [web_contents()] still yields a WebContents. *)
Definition attached (e : Env) : bool :=
  match web_contents e with Some _ => true | None => false end.


Definition is_delegate_unblock (c : Call) : bool :=
  match c with Delegate_SetWebContentsBlocked false => true | _ => false end.


(** The calls [BlockWebContentsInteraction blocked] issues. *)
Definition block_calls (e : Env) (m : Manager) (blocked : bool) : list Call :=
  match web_contents e with
  | None => []
  | Some c =>
      (if GetRenderViewHost c
       then [RenderViewHost_SetIgnoreInputEvents blocked] else [])
      ++ (if delegate_ m then [Delegate_SetWebContentsBlocked blocked] else [])
  end.

(** The calls of the loop of [CloseAllDialogs] over the queue [l]: one close
    request per dialog, each followed by what [WillClose] tells the host. *)
Fixpoint close_all_calls (e : Env) (m : Manager) (l : list DialogState)
  : list Call :=
  match l with
  | [] => []
  | s :: l' =>
      NativeManager_CloseDialog (dialog s)
      :: block_calls e m (negb (Nat.eqb (length l') 0))
      ++ close_all_calls e m l'
  end.

(** [~WebContentsModalDialogManager]. *)
Definition destroy : M unit :=
  l <- gets child_dialogs_ ;;
  DCHECK (Nat.eqb (length l) 0).

(** A sequence of operations, each in its own surroundings; the calls are
    collected in order. *)
Fixpoint run_ops (ops : list (Env * Op)) (m : Manager)
  : Result (Manager * list Call) :=
  match ops with
  | [] => Ok (m, [])
  | (e, op) :: ops' =>
      match run (exec op) e m with
      | Ok (_, m1, t1) =>
          match run_ops ops' m1 with
          | Ok (m2, t2) => Ok (m2, t1 ++ t2)
          | Abort f => Abort f
          end
      | Abort f => Abort f
      end
  end.

(** What the delegate was last told about blocking, [b0] if it was told
    nothing. *)
Fixpoint delegate_blocked (b0 : bool) (t : list Call) : bool :=
  match t with
  | [] => b0
  | Delegate_SetWebContentsBlocked b :: t' => delegate_blocked b t'
  | _ :: t' => delegate_blocked b0 t'
  end.

Definition front_handle (m : Manager) : option NativeWebContentsModalDialog :=
  match child_dialogs_ m with
  | [] => None
  | s :: _ => Some (dialog s)
  end.

(** The dialog an adapter request is about. *)
Definition request_about (c : Call) : option NativeWebContentsModalDialog :=
  match c with
  | NativeManager_ShowDialog d | NativeManager_HideDialog d
  | NativeManager_CloseDialog d | NativeManager_FocusDialog d => Some d
  | _ => None
  end.

(** [subsequence l1 l2]: [l1] is [l2] with some elements left out, the order
    kept. *)
Inductive subsequence {A : Type} : list A -> list A -> Prop :=
| subsequence_nil : subsequence [] []
| subsequence_skip x l1 l2 : subsequence l1 l2 -> subsequence l1 (x :: l2)
| subsequence_keep x l1 l2 : subsequence l1 l2 -> subsequence (x :: l1) (x :: l2).

End web_modal.

(* ===================================================================== *)
(** * Strings: the pieces of std::string and of base/strings the code uses *)
(* ===================================================================== *)

Module base.

Local Open Scope char_scope.

(** A [std::string] is its sequence of characters. *)
Definition str := list ascii.

Definition lit (s : String.string) : str := String.list_ascii_of_string s.
Arguments lit s%_string.

Fixpoint str_eqb (a b : str) : bool :=
  match a, b with
  | [], [] => true
  | x :: a', y :: b' => Ascii.eqb x y && str_eqb a' b'
  | _, _ => false
  end.

(** [s.find(c)]: position of the first occurrence, None for [npos]. *)
Fixpoint find_char (c : ascii) (s : str) : option nat :=
  match s with
  | [] => None
  | x :: s' => if Ascii.eqb x c then Some O else option_map S (find_char c s')
  end.

(** [hay.compare(0, needle.size(), needle) == 0]. *)
Fixpoint starts_with (needle hay : str) : bool :=
  match needle, hay with
  | [], _ => true
  | x :: n', y :: h' => Ascii.eqb x y && starts_with n' h'
  | _ :: _, [] => false
  end.

(** [hay.find(needle)]: position of the first occurrence of [needle]. *)
Fixpoint find_str (needle hay : str) {struct hay} : option nat :=
  if starts_with needle hay then Some O
  else match hay with
       | [] => None
       | _ :: h' => option_map S (find_str needle h')
       end.

Arguments find_char c%_char s.

Definition at_position_0 (r : option nat) : bool :=
  match r with Some O => true | _ => false end.

(** [s[i] = c] for a position inside the string. *)
Fixpoint set_char (i : nat) (c : ascii) (s : str) : str :=
  match s, i with
  | [], _ => []
  | _ :: s', O => c :: s'
  | x :: s', S i' => x :: set_char i' c s'
  end.

Arguments set_char i c%_char s.

Definition in_range (lo hi c : ascii) : bool :=
  Nat.leb (nat_of_ascii lo) (nat_of_ascii c)
  && Nat.leb (nat_of_ascii c) (nat_of_ascii hi).

(** Modelled from the spec: [IsAsciiAlpha] of base/strings/string_util.h is
    not among the sources; the spec speaks of ASCII alphabetic characters. *)
Definition IsAsciiAlpha (c : ascii) : bool :=
  in_range "A" "Z" c || in_range "a" "z" c.

(** Modelled from the spec: [StringToLowerASCII] and [StringToUpperASCII] of
    base/strings/string_util.h are not among the sources; the spec has them
    lowercase and uppercase a string, which on ASCII moves the letters by the
    distance between the two alphabets and leaves every other character. *)
Definition ToLowerASCII (c : ascii) : ascii :=
  if in_range "A" "Z" c then ascii_of_nat (nat_of_ascii c + 32) else c.

Definition ToUpperASCII (c : ascii) : ascii :=
  if in_range "a" "z" c then ascii_of_nat (nat_of_ascii c - 32) else c.

Definition StringToLowerASCII (s : str) : str := map ToLowerASCII s.
Definition StringToUpperASCII (s : str) : str := map ToUpperASCII s.

(** Modelled from the spec: [TrimWhitespaceASCII] and its whitespace table
    are not among the sources; the spec has it trim surrounding whitespace.
    The ASCII whitespace characters are tab, line feed, vertical tab, form
    feed, carriage return and space. *)
Definition IsAsciiWhitespace (c : ascii) : bool :=
  in_range "009" "013" c || Ascii.eqb c " ".

Fixpoint trim_leading (s : str) : str :=
  match s with
  | [] => []
  | c :: s' => if IsAsciiWhitespace c then trim_leading s' else s
  end.

Definition trim_trailing (s : str) : str := rev (trim_leading (rev s)).

Definition TrimWhitespaceASCII (s : str) : str := trim_trailing (trim_leading s).

(** The pieces of [s] between the occurrences of [sep]; a string with no
    separator is one piece. *)
Fixpoint pieces (sep : ascii) (s : str) : list str :=
  match s with
  | [] => [[]]
  | c :: s' =>
      if Ascii.eqb c sep then [] :: pieces sep s'
      else match pieces sep s' with
           | p :: ps => (c :: p) :: ps
           | [] => [[c]]
           end
  end.

(** Modelled from the spec: [base::SplitString] is not among the sources; the
    spec has the code split on the separator into parts.  Two points the spec
    leaves open are kept as the library has them: a string that yields a
    single empty piece yields no piece at all, and [trim_whitespace] says
    whether each piece is trimmed of surrounding whitespace.  The properties
    below hold for either value of [trim_whitespace]. *)
Definition SplitString (trim_whitespace : bool) (s : str) (sep : ascii)
  : list str :=
  let r := map (fun p => if trim_whitespace then TrimWhitespaceASCII p else p)
               (pieces sep s) in
  match r with
  | [[]] => []
  | _ => r
  end.

Arguments SplitString trim_whitespace s sep%_char.

(** Modelled from the spec: [StartsWithASCII] is not among the sources; with
    [case_sensitive] false the spec has it compare ignoring case. *)
Definition StartsWithASCII (s search : str) (case_sensitive : bool) : bool :=
  if case_sensitive then starts_with search s
  else starts_with (StringToLowerASCII search) (StringToLowerASCII s).

(** ** Notions the properties are stated with *)

(** The characters a code is made of when its pieces are alphabetic. *)
Definition code_char (c : ascii) : bool :=
  IsAsciiAlpha c || IsAsciiWhitespace c || Ascii.eqb c "-".

Definition IsAsciiUpperLetter (c : ascii) : bool := in_range "A" "Z" c.
Definition IsAsciiLowerLetter (c : ascii) : bool := in_range "a" "z" c.

(** No whitespace at either end, read off the positions that hold
    whitespace. *)
Definition starts_clean (ws : list bool) : bool :=
  match ws with
  | true :: _ => false
  | _ => true
  end.

Definition trimmed (s : str) : bool :=
  starts_clean (map IsAsciiWhitespace s)
  && starts_clean (rev (map IsAsciiWhitespace s)).

End base.

(* ===================================================================== *)
(** * LanguageDetectionUtil *)
(* ===================================================================== *)

Module LanguageDetectionUtil.

Import base.

(** [struct SimilarLanguageCode] and the table [kSimilarLanguageCodes]. *)
Record SimilarLanguageCode := mkSimilar { code : str; group : Z }.

Definition kSimilarLanguageCodes : list SimilarLanguageCode :=
  [ mkSimilar (lit "bs") 1; mkSimilar (lit "hr") 1;
    mkSimilar (lit "hi") 2; mkSimilar (lit "ne") 2 ].

Fixpoint group_code_in (table : list SimilarLanguageCode) (language : str) : Z :=
  match table with
  | [] => 0%Z
  | entry :: table' =>
      if negb (at_position_0 (find_str (code entry) language))
      then group_code_in table' language
      else group entry
  end.

Definition GetSimilarLanguageGroupCode (language : str) : Z :=
  group_code_in kSimilarLanguageCodes language.

Definition kWellKnownCodesOnWrongConfiguration : list str :=
  map lit ["es"; "pt"; "ja"; "ru"; "de"; "zh-CN"; "zh-TW"; "ar"; "id"; "fr";
           "it"; "th"]%string.

(** Modelled from the spec: [chrome::kUnknownLanguageCode] is declared in
    chrome/common/chrome_constants.h, not among the sources; the spec names
    the sentinel "und". *)
Definition kUnknownLanguageCode : str := lit "und".

Definition CanCLDComplementSubCode (page_language cld_language : str) : bool :=
  str_eqb page_language (lit "zh") && StartsWithASCII cld_language (lit "zh-") false.

Definition CorrectLanguageCodeTypo (code : str) : str :=
  let code :=
    match find_char "," code with
    | Some coma_index => firstn coma_index code
    | None => code
    end in
  let code := TrimWhitespaceASCII code in
  let code :=
    match find_char "_" code with
    | Some underscore_index => set_char underscore_index "-" code
    | None => code
    end in
  match find_char "-" code with
  | Some dash_index =>
      StringToLowerASCII (firstn dash_index code)
      ++ StringToUpperASCII (skipn dash_index code)
  | None => StringToLowerASCII code
  end.

Definition IsSameOrSimilarLanguages (page_language cld_language : str) : bool :=
  if (2 <=? length page_language)
     && at_position_0 (find_str (firstn 2 page_language) cld_language)
  then true
  else
    let page_code := GetSimilarLanguageGroupCode page_language in
    negb (Z.eqb page_code 0)
    && Z.eqb page_code (GetSimilarLanguageGroupCode cld_language).

Definition MaybeServerWrongConfiguration (page_language cld_language : str)
  : bool :=
  if negb (StartsWithASCII page_language (lit "en") false) then false
  else existsb (str_eqb cld_language) kWellKnownCodesOnWrongConfiguration.

(** The language enumeration of the text classifier (third_party/cld); only
    its three "no result" values are told apart from the languages proper. *)
Inductive Language :=
| NUM_LANGUAGES
| UNKNOWN_LANGUAGE
| TG_UNKNOWN_LANGUAGE
| LANGUAGE (id : nat).

Definition is_no_result (l : Language) : bool :=
  match l with LANGUAGE _ => false | _ => true end.

(** What [DetectLanguageOfUnicodeText] hands back. *)
Record Detection := mkDetection {
  cld_language_of : Language;
  is_reliable_of : bool;
  text_bytes_of : Z
}.

(** [TranslateCommonMetrics::LanguageVerificationType], as reported. *)
Inductive LanguageVerificationType :=
| LANGUAGE_VERIFICATION_CLD_DISABLED
| LANGUAGE_VERIFICATION_CLD_ONLY
| LANGUAGE_VERIFICATION_UNKNOWN
| LANGUAGE_VERIFICATION_CLD_AGREE
| LANGUAGE_VERIFICATION_CLD_DISAGREE
| LANGUAGE_VERIFICATION_TRUST_CLD
| LANGUAGE_VERIFICATION_CLD_COMPLEMENT_SUB_CODE.

(** The value returned by [DeterminePageLanguage], the verification reported
    to the metrics, and the two out-parameters (None when not written). *)
Record Determined := mkDetermined {
  page_language : str;
  verification : LanguageVerificationType;
  cld_language_p : option str;
  is_cld_reliable_p : option bool
}.

Section Collaborators.

(** Whether [base::SplitString] trims its pieces (see [base.SplitString]). *)
Variable trim_whitespace : bool.

(** [TranslateUtil::ToTranslateLanguageSynonym], a fixed table outside the
    sources. *)
Variable ToTranslateLanguageSynonym : str -> str.

(** The text classifier: [DetectLanguageOfUnicodeText] on the page contents
    (UTF-16 code units) and [LanguageCodeWithDialects]. *)
Variable DetectLanguageOfUnicodeText : list N -> Detection.
Variable LanguageCodeWithDialects : Language -> str.

(** Whether the build defines [ENABLE_LANGUAGE_DETECTION]. *)
Variable ENABLE_LANGUAGE_DETECTION : bool.

Definition IsValidLanguageCode (code : str) : bool :=
  let chunks := SplitString trim_whitespace code "-" in
  if (length chunks <? 1) || (2 <? length chunks) then false
  else
    let main_code := nth 0 chunks [] in
    if (length main_code <? 1) || (3 <? length main_code) then false
    else if negb (forallb IsAsciiAlpha main_code) then false
    else if length chunks =? 1 then true
    else
      let sub_code := nth 1 chunks [] in
      if negb (length sub_code =? 2) then false
      else if negb (forallb IsAsciiAlpha sub_code) then false
      else true.

Definition ApplyLanguageCodeCorrection (code : str) : str :=
  let code := CorrectLanguageCodeTypo code in
  if negb (IsValidLanguageCode code) then []
  else ToTranslateLanguageSynonym code.

(** The steps of [ApplyLanguageCodeCorrection] before the synonym table:
    typo correction, then validation, an invalid code becoming empty. *)
Definition normalize (code : str) : str :=
  let code := CorrectLanguageCodeTypo code in
  if negb (IsValidLanguageCode code) then [] else code.

Definition DetermineTextLanguage (text : list N) : str * bool :=
  let d := DetectLanguageOfUnicodeText text in
  let cld_language := cld_language_of d in
  if is_reliable_of d && (100 <=? text_bytes_of d)%Z
     && negb (is_no_result cld_language)
  then (LanguageCodeWithDialects cld_language, is_reliable_of d)
  else (kUnknownLanguageCode, is_reliable_of d).

(** The language declared by the page: the corrected html lang when it is
    valid, the corrected Content-Language otherwise. *)
Definition declared_language (code html_lang : str) : str :=
  let modified_html_lang :=
    if negb (length html_lang =? 0) then ApplyLanguageCodeCorrection html_lang
    else [] in
  let modified_code :=
    if negb (length code =? 0) then ApplyLanguageCodeCorrection code
    else [] in
  if length modified_html_lang =? 0 then modified_code else modified_html_lang.

Definition DeterminePageLanguage (code html_lang : str) (contents : list N)
  : Determined :=
  let language := declared_language code html_lang in
  if ENABLE_LANGUAGE_DETECTION then
    let '(detected, is_cld_reliable) := DetermineTextLanguage contents in
    let cld_language := ToTranslateLanguageSynonym detected in
    let answer l v := mkDetermined l v (Some detected) (Some is_cld_reliable) in
    if length language =? 0 then
      answer cld_language LANGUAGE_VERIFICATION_CLD_ONLY
    else if str_eqb cld_language kUnknownLanguageCode then
      answer language LANGUAGE_VERIFICATION_UNKNOWN
    else if CanCLDComplementSubCode language cld_language then
      answer cld_language LANGUAGE_VERIFICATION_CLD_COMPLEMENT_SUB_CODE
    else if IsSameOrSimilarLanguages language cld_language then
      answer language LANGUAGE_VERIFICATION_CLD_AGREE
    else if MaybeServerWrongConfiguration language cld_language then
      answer cld_language LANGUAGE_VERIFICATION_TRUST_CLD
    else
      answer kUnknownLanguageCode LANGUAGE_VERIFICATION_CLD_DISAGREE
  else
    mkDetermined language LANGUAGE_VERIFICATION_CLD_DISABLED None None.

End Collaborators.

(** ** Notions the properties are stated with *)

(** The steps of [CorrectLanguageCodeTypo] around the trimming, each by
    itself. *)
Definition keep_first_language (code : str) : str :=
  match find_char "," code with
  | Some coma_index => firstn coma_index code
  | None => code
  end.

Definition underscore_to_dash (code : str) : str :=
  match find_char "_" code with
  | Some underscore_index => set_char underscore_index "-" code
  | None => code
  end.

Definition lower_then_upper (code : str) : str :=
  match find_char "-" code with
  | Some dash_index =>
      StringToLowerASCII (firstn dash_index code)
      ++ StringToUpperASCII (skipn dash_index code)
  | None => StringToLowerASCII code
  end.

(** The number of hyphens of a code. *)
Definition hyphens (code : str) : nat :=
  length (filter (fun c => Ascii.eqb c "-") code).

(** A piece of a code as the validation sees it. *)
Definition piece (trim_whitespace : bool) (s : str) : str :=
  if trim_whitespace then TrimWhitespaceASCII s else s.

(** The part of a code before its first hyphen, and the part after it. *)
Definition primary_tag (code : str) : str :=
  match find_char "-" code with
  | Some dash_index => firstn dash_index code
  | None => code
  end.

Definition region_tag (code : str) : option str :=
  match find_char "-" code with
  | Some dash_index => Some (skipn (S dash_index) code)
  | None => None
  end.

(** The group a primary tag has in the table, looked up as a key; 0 when the
    tag is not a key of the table. *)
Fixpoint group_of_key (table : list SimilarLanguageCode) (tag : str) : Z :=
  match table with
  | [] => 0%Z
  | entry :: table' =>
      if str_eqb (code entry) tag then group entry else group_of_key table' tag
  end.

(** The predicate as the specification words it: the first two characters of
    the two codes match, or the primary tags of both have the same nonzero
    group in the table. *)
Definition SameOrSimilar_spec (declared classifier : str) : bool :=
  str_eqb (firstn 2 declared) (firstn 2 classifier)
  || (negb (Z.eqb (group_of_key kSimilarLanguageCodes (primary_tag declared)) 0)
      && Z.eqb (group_of_key kSimilarLanguageCodes (primary_tag declared))
               (group_of_key kSimilarLanguageCodes (primary_tag classifier))).

End LanguageDetectionUtil.

(* ===================================================================== *)
(** * Properties of the modal dialog manager *)
(* ===================================================================== *)

Section ManagerFacts.

Import web_modal.
Local Open Scope Z_scope.

(** Unfolds the monadic plumbing so that a method applied to a state
    evaluates. *)
Ltac run_method :=
  unfold run, when, DCHECK, FindDialogState, front, bind, gets, asks, modify,
    call, abort, ret;
  cbn beta iota.

Ltac run_method_in H :=
  unfold run, when, DCHECK, FindDialogState, front, bind, gets, asks, modify,
    call, abort, ret in H;
  cbn beta iota in H.

(** ** Positions *)

Lemma find_from_le (l : list DialogState) d : (find_from l d <= length l)%nat.
Proof.
  induction l as [|s l IH]; simpl; [lia|].
  destruct (dialog s =? d); lia.
Qed.

Lemma find_from_absent (l : list DialogState) d :
  ~ In d (map dialog l) -> find_from l d = length l.
Proof.
  induction l as [|s l IH]; simpl; intros Hn; [reflexivity|].
  destruct (Z.eqb_spec (dialog s) d) as [Heq|Hne].
  - exfalso. apply Hn. now left.
  - f_equal. apply IH. intros Hin. apply Hn. now right.
Qed.

Lemma find_from_present (l : list DialogState) d :
  In d (map dialog l) -> (find_from l d < length l)%nat.
Proof.
  induction l as [|s l IH]; simpl; intros Hin; [contradiction|].
  destruct (Z.eqb_spec (dialog s) d) as [Heq|Hne]; [lia|].
  destruct Hin as [Heq|Hin]; [contradiction|].
  specialize (IH Hin). lia.
Qed.


Lemma erase_handles_NoDup (l : list DialogState) i :
  NoDup (map dialog l) -> NoDup (map dialog (erase i l)).
Proof.
  revert i. induction l as [|x l IH]; intros i Hnd; simpl.
  - destruct i; constructor.
  - inversion Hnd as [|? ? Hx Hl]; subst.
    destruct i as [|i]; [assumption|].
    simpl. constructor; [|now apply IH].
    intros Hin. apply Hx. clear -Hin.
    revert i Hin. induction l as [|y l IHl]; intros i Hin.
    + destruct i; simpl in Hin; contradiction.
    + destruct i as [|i]; simpl in *.
      * now right.
      * destruct Hin as [H|H]; [now left|right; eauto].
Qed.

Lemma set_prevent_at_handles (l : list DialogState) i v :
  map dialog (set_prevent_at i v l) = map dialog l.
Proof.
  revert i. induction l as [|x l IH]; intros [|i]; simpl; try reflexivity.
  now rewrite IH.
Qed.

(** ** What each method does, as an equation *)

Lemma BlockWebContentsInteraction_run e m blocked :
  run (BlockWebContentsInteraction blocked) e m = Ok (tt, m, block_calls e m blocked).
Proof.
  unfold BlockWebContentsInteraction, block_calls. run_method.
  destruct (web_contents e) as [c|]; [|reflexivity].
  destruct (GetRenderViewHost c), (delegate_ m); reflexivity.
Qed.

Lemma ShowDialog_run e m d :
  run (ShowDialog d) e m =
  Ok (tt, push_back (DialogState_new d) m,
      NativeManager_ManageDialog d
      :: (if Nat.eqb (length (child_dialogs_ m)) 0
          then (if delegate_ m && IsWebContentsVisible e
                then [NativeManager_ShowDialog d] else [])
               ++ block_calls e m true
          else [])).
Proof.
  unfold ShowDialog. run_method.
  replace (length (child_dialogs_ (push_back (DialogState_new d) m)))
    with (S (length (child_dialogs_ m)))
    by (cbn [push_back set_child_dialogs child_dialogs_]; rewrite length_app;
        cbn [length]; lia).
  cbn [Nat.eqb].
  destruct (Nat.eqb (length (child_dialogs_ m)) 0); [|reflexivity].
  pose proof (BlockWebContentsInteraction_run e (push_back (DialogState_new d) m) true) as HB.
  unfold run in HB.
  change (delegate_ (push_back (DialogState_new d) m)) with (delegate_ m).
  destruct (delegate_ m && IsWebContentsVisible e); cbn beta iota; rewrite HB;
    reflexivity.
Qed.

Lemma WillClose_run e m d :
  run (WillClose d) e m =
  let l := child_dialogs_ m in
  let i := find_from l d in
  if Nat.eqb i (length l) then Ok (tt, m, [])
  else
    let l' := erase i l in
    Ok (tt, set_child_dialogs l' m,
        match l' with
        | s :: _ =>
            if Nat.eqb i 0 && negb (closing_all_dialogs_ m)
            then [NativeManager_ShowDialog (dialog s)] else []
        | [] => []
        end ++ block_calls e m (negb (Nat.eqb (length l') 0))).
Proof.
  unfold WillClose. run_method. cbv zeta.
  destruct (Nat.eqb (find_from (child_dialogs_ m) d) (length (child_dialogs_ m)));
    [reflexivity|].
  set (l' := erase (find_from (child_dialogs_ m) d) (child_dialogs_ m)).
  change (child_dialogs_ (set_child_dialogs l' m)) with l'.
  change (closing_all_dialogs_ (set_child_dialogs l' m)) with (closing_all_dialogs_ m).
  pose proof (BlockWebContentsInteraction_run e (set_child_dialogs l' m)) as HB.
  unfold run in HB.
  destruct l' as [|s l''].
  - rewrite HB. reflexivity.
  - destruct (Nat.eqb (find_from (child_dialogs_ m) d) 0 && negb (closing_all_dialogs_ m));
      cbn beta iota; rewrite HB; reflexivity.
Qed.

Lemma SetPreventCloseOnLoadStart_run e m d prevent :
  run (SetPreventCloseOnLoadStart d prevent) e m =
  let l := child_dialogs_ m in
  let loc := find_from l d in
  if Nat.eqb loc (length l)
  then Abort (if dcheck_is_on e then DcheckFailure else InvalidDereference)
  else Ok (tt, set_child_dialogs (set_prevent_at loc true l) m, []).
Proof.
  unfold SetPreventCloseOnLoadStart. run_method. cbv zeta.
  destruct (Nat.eqb (find_from (child_dialogs_ m) d) (length (child_dialogs_ m)));
    destruct (dcheck_is_on e); reflexivity.
Qed.

Lemma run_bind A B (c : M A) (k : A -> M B) e m :
  run (bind c k) e m =
  match run c e m with
  | Ok (a, m1, t1) =>
      match run (k a) e m1 with
      | Ok (b, m2, t2) => Ok (b, m2, t1 ++ t2)
      | Abort f => Abort f
      end
  | Abort f => Abort f
  end.
Proof. reflexivity. Qed.

Lemma close_all_calls_delegate e m1 m2 l :
  delegate_ m1 = delegate_ m2 -> close_all_calls e m1 l = close_all_calls e m2 l.
Proof.
  intros Hd. induction l as [|s l IH]; simpl; [reflexivity|].
  unfold block_calls. now rewrite Hd, IH.
Qed.

(** Closing the front dialog during a bulk close removes it and shows
    nothing. *)
Lemma WillClose_front_while_closing e m s l :
  child_dialogs_ m = s :: l -> closing_all_dialogs_ m = true ->
  run (WillClose (dialog s)) e m =
  Ok (tt, set_child_dialogs l m, block_calls e m (negb (Nat.eqb (length l) 0))).
Proof.
  intros Hl Hc. rewrite WillClose_run. cbv zeta. rewrite Hl, Hc.
  cbn [find_from]. rewrite Z.eqb_refl. cbn [length Nat.eqb erase].
  rewrite andb_false_r. destruct l; reflexivity.
Qed.

(** The loop of [CloseAllDialogs] returns as soon as the fuel covers the
    queue, leaving it empty. *)
Lemma close_while_not_empty_run e fuel : forall m,
  closing_all_dialogs_ m = true ->
  (length (child_dialogs_ m) <= fuel)%nat ->
  run (close_while_not_empty fuel) e m =
  Ok (tt, set_child_dialogs [] m, close_all_calls e m (child_dialogs_ m)).
Proof.
  induction fuel as [|fuel IH]; intros [dg l c] Hc Hlen;
    cbn [child_dialogs_ closing_all_dialogs_] in *; subst c.
  - destruct l; [reflexivity | simpl in Hlen; lia].
  - destruct l as [|s l]; [reflexivity|].
    cbn [close_while_not_empty]. rewrite run_bind.
    change (run (gets child_dialogs_) e (mkManager dg (s :: l) true))
      with (Ok (s :: l, mkManager dg (s :: l) true, @nil Call)).
    cbn beta iota. rewrite run_bind.
    unfold native_manager_CloseDialog at 1. rewrite run_bind.
    change (run (call (NativeManager_CloseDialog (dialog s))) e (mkManager dg (s :: l) true))
      with (Ok (tt, mkManager dg (s :: l) true, [NativeManager_CloseDialog (dialog s)])).
    cbn beta iota.
    rewrite (@WillClose_front_while_closing e (mkManager dg (s :: l) true) s l)
      by reflexivity.
    rewrite IH; [| reflexivity | simpl in *; lia].
    cbn [set_child_dialogs child_dialogs_ delegate_ closing_all_dialogs_ app
         close_all_calls].
    rewrite (@close_all_calls_delegate e (mkManager dg l true) (mkManager dg (s :: l) true))
      by reflexivity.
    reflexivity.
Qed.

Lemma CloseAllDialogs_run e m fuel :
  (length (child_dialogs_ m) <= fuel)%nat ->
  run (CloseAllDialogs fuel) e m =
  Ok (tt, mkManager (delegate_ m) [] false, close_all_calls e m (child_dialogs_ m)).
Proof.
  intros Hlen. unfold CloseAllDialogs. rewrite run_bind.
  change (run (modify (set_closing_all_dialogs true)) e m)
    with (Ok (tt, set_closing_all_dialogs true m, @nil Call)).
  cbn beta iota. rewrite run_bind.
  rewrite close_while_not_empty_run by (try reflexivity; exact Hlen).
  cbn beta iota.
  change (run (modify (set_closing_all_dialogs false)) e
            (set_child_dialogs [] (set_closing_all_dialogs true m)))
    with (Ok (tt, mkManager (delegate_ m) [] false, @nil Call)).
  cbn beta iota. rewrite app_nil_r. cbn [app]. f_equal. f_equal.
  apply close_all_calls_delegate. reflexivity.
Qed.

(** The bulk close never asks the adapter to show a dialog. *)
Lemma close_all_calls_no_show e m l :
  existsb is_native_show (close_all_calls e m l) = false.
Proof.
  induction l as [|s l IH]; [reflexivity|].
  cbn [close_all_calls existsb is_native_show orb].
  rewrite existsb_app, IH, orb_false_r.
  unfold block_calls. destruct (web_contents e) as [c|]; [|reflexivity].
  destruct (GetRenderViewHost c), (delegate_ m); reflexivity.
Qed.

(** With a delegate and an attached WebContents, the delegate is unblocked
    once: when the last dialog goes. *)
Lemma close_all_calls_one_unblock e m l c :
  l <> [] -> delegate_ m = true -> web_contents e = Some c ->
  length (filter is_delegate_unblock (close_all_calls e m l)) = 1%nat.
Proof.
  intros Hne Hd Hw. induction l as [|s l IH]; [congruence|].
  cbn [close_all_calls filter is_delegate_unblock].
  rewrite filter_app, length_app.
  unfold block_calls at 1. rewrite Hw, Hd.
  destruct l as [|s' l].
  - destruct (GetRenderViewHost c); reflexivity.
  - rewrite IH by congruence.
    destruct (GetRenderViewHost c); reflexivity.
Qed.

(** ** Handles stay unique when only new dialogs are shown *)

Lemma close_while_not_empty_empties e fuel : forall m m' t,
  run (close_while_not_empty fuel) e m = Ok (tt, m', t) -> child_dialogs_ m' = [].
Proof.
  induction fuel as [|fuel IH]; intros m m' t H; cbn [close_while_not_empty] in H;
    rewrite run_bind in H;
    change (run (gets child_dialogs_) e m) with (Ok (child_dialogs_ m, m, @nil Call)) in H;
    cbn beta iota in H;
    destruct (child_dialogs_ m) as [|s l] eqn:Hl.
  - cbv in H. inversion H; subst. exact Hl.
  - cbv in H. discriminate.
  - cbv in H. inversion H; subst. exact Hl.
  - rewrite run_bind in H.
    destruct (run (native_manager_CloseDialog (dialog s)) e m) as [[[u m1] t1]|f];
      [|discriminate].
    destruct (run (close_while_not_empty fuel) e m1) as [[[u2 m2] t2]|f] eqn:Hloop;
      [|discriminate].
    cbn [app] in H. inversion H; subst. eapply IH; eauto.
Qed.

Lemma WillClose_keeps_handles_unique e m d m' t :
  NoDup (handles m) -> run (WillClose d) e m = Ok (tt, m', t) -> NoDup (handles m').
Proof.
  intros Hnd H. rewrite WillClose_run in H. cbv zeta in H.
  destruct (Nat.eqb (find_from (child_dialogs_ m) d) (length (child_dialogs_ m)));
    inversion H; subst; [assumption|].
  unfold handles. cbn [child_dialogs_ set_child_dialogs].
  now apply erase_handles_NoDup.
Qed.

Lemma exec_keeps_handles_unique op e m m' t :
  NoDup (handles m) -> shows_fresh op m ->
  run (exec op) e m = Ok (tt, m', t) -> NoDup (handles m').
Proof.
  intros Hnd Hfresh H. destruct op as [d| |d prevent|d|type|fuel| |fuel];
    cbn [exec shows_fresh] in *.
  - rewrite ShowDialog_run in H. inversion H; subst.
    unfold handles, push_back. cbn [child_dialogs_ set_child_dialogs].
    rewrite map_app. cbn [map DialogState_new dialog].
    apply NoDup_app; [assumption | repeat constructor; simpl; tauto |].
    intros x Hx [Hd|[]]. subst. contradiction.
  - unfold FocusTopmostDialog in H. run_method_in H.
    destruct (child_dialogs_ m) eqn:Hl; destruct (dcheck_is_on e) eqn:Hd;
      cbn in H; rewrite ?Hl in H; try discriminate; inversion H; subst;
      assumption.
  - rewrite SetPreventCloseOnLoadStart_run in H. cbv zeta in H.
    destruct (Nat.eqb (find_from (child_dialogs_ m) d) (length (child_dialogs_ m)));
      [discriminate|].
    inversion H; subst. unfold handles. cbn [child_dialogs_ set_child_dialogs].
    now rewrite set_prevent_at_handles.
  - eapply WillClose_keeps_handles_unique; eauto.
  - destruct type as [visible| |]; cbn [Observe] in H.
    + run_method_in H. destruct (child_dialogs_ m) eqn:Hl; destruct visible;
        cbn in H; inversion H; subst; assumption.
    + rewrite run_bind in H.
      change (run (gets child_dialogs_) e m) with (Ok (child_dialogs_ m, m, @nil Call)) in H.
      cbn beta iota in H.
      destruct (child_dialogs_ m) as [|s l] eqn:Hl.
      * cbv in H. inversion H; subst. assumption.
      * destruct (prevent_close_on_load_start s); cbn [negb] in H.
        -- cbv in H. inversion H; subst. assumption.
        -- unfold native_manager_CloseDialog in H. rewrite run_bind in H.
           change (run (call (NativeManager_CloseDialog (dialog s))) e m)
             with (Ok (tt, m, [NativeManager_CloseDialog (dialog s)])) in H.
           cbn beta iota in H.
           destruct (run (WillClose (dialog s)) e m) as [[[u m1] t1]|f] eqn:Hw;
             [|discriminate].
           destruct u. cbn [app] in H. inversion H; subst.
           eapply WillClose_keeps_handles_unique; eauto.
    + cbv in H. inversion H; subst. assumption.
  - unfold CloseAllDialogs in H. rewrite run_bind in H.
    change (run (modify (set_closing_all_dialogs true)) e m)
      with (Ok (tt, set_closing_all_dialogs true m, @nil Call)) in H.
    cbn beta iota in H. rewrite run_bind in H.
    destruct (run (close_while_not_empty fuel) e (set_closing_all_dialogs true m))
      as [[[u m1] t1]|f] eqn:Hloop; [|discriminate].
    destruct u. apply close_while_not_empty_empties in Hloop.
    cbv [run modify] in H. cbn [app] in H. inversion H; subst.
    unfold handles. cbn [set_closing_all_dialogs child_dialogs_]. rewrite Hloop.
    constructor.
  - unfold DidGetIgnoredUIEvent in H. run_method_in H.
    destruct (child_dialogs_ m) eqn:Hl; cbn in H; inversion H; subst;
      assumption.
  - unfold WebContentsDestroyed, CloseAllDialogs in H. rewrite run_bind in H.
    change (run (modify (set_closing_all_dialogs true)) e m)
      with (Ok (tt, set_closing_all_dialogs true m, @nil Call)) in H.
    cbn beta iota in H. rewrite run_bind in H.
    destruct (run (close_while_not_empty fuel) e (set_closing_all_dialogs true m))
      as [[[u m1] t1]|f] eqn:Hloop; [|discriminate].
    destruct u. apply close_while_not_empty_empties in Hloop.
    cbv [run modify] in H. cbn [app] in H. inversion H; subst.
    unfold handles. cbn [set_closing_all_dialogs child_dialogs_]. rewrite Hloop.
    constructor.
Qed.

(** ** The claims about the dialog manager *)

(** C1. The claim asks that after [SetPreventCloseOnLoadStart h prevent] the
    entry's flag equal [prevent].  The method stores [true] whatever the
    argument: called with [false] on an entry whose flag is [false], it
    leaves the flag [true]. *)
Theorem C1_SetPreventCloseOnLoadStart_false_stores_true :
  forall (e : Env) (h : NativeWebContentsModalDialog) (delegate closing : bool),
    run (SetPreventCloseOnLoadStart h false) e
        (mkManager delegate [mkDialogState h false] closing)
    = Ok (tt, mkManager delegate [mkDialogState h true] closing, []).
Proof.
  intros e h delegate closing. rewrite SetPreventCloseOnLoadStart_run.
  cbn [child_dialogs_ find_from dialog length]. rewrite Z.eqb_refl.
  reflexivity.
Qed.

(** C2, as stated, fails: showing the dialog 7 twice from a fresh manager is
    not a no-op the second time, and the reachable state it leaves holds two
    entries with the handle 7. *)
Lemma C2_counterexample_ShowDialog_twice :
  run (ShowDialog 7) (mkEnv true (Some (mkWebContents true)) true)
      (mkManager true [DialogState_new 7] false)
  = Ok (tt, mkManager true [DialogState_new 7; DialogState_new 7] false,
        [NativeManager_ManageDialog 7])
  /\ In 7 (handles (mkManager true [DialogState_new 7] false))
  /\ reachable (mkManager true [DialogState_new 7; DialogState_new 7] false)
  /\ ~ NoDup (handles (mkManager true [DialogState_new 7; DialogState_new 7] false)).
Proof.
  split; [reflexivity|]. split; [simpl; auto|]. split.
  - eapply reachable_step with (op := op_ShowDialog 7)
      (e := mkEnv true (Some (mkWebContents true)) true)
      (m := mkManager true [DialogState_new 7] false).
    + eapply reachable_step with (op := op_ShowDialog 7)
        (e := mkEnv true (Some (mkWebContents true)) true)
        (m := initial true).
      * constructor.
      * reflexivity.
    + reflexivity.
  - intros H. inversion H as [|? ? Hin ?]; subst. apply Hin. simpl. auto.
Qed.

(** C2, amended.  [ShowDialog h] on a queue that already holds [h] appends a
    second entry for [h] and hands the dialog to the native manager, with no
    show request; and the queue never holds one handle twice in the states
    reached when [ShowDialog] is only called with a dialog that is not
    queued. *)
Theorem C2_ShowDialog_appends_and_fresh_shows_keep_handles_unique :
  (forall e m h,
      In h (handles m) ->
      run (ShowDialog h) e m
      = Ok (tt, push_back (DialogState_new h) m, [NativeManager_ManageDialog h]))
  /\ (forall m, reachable_fresh m -> NoDup (handles m)).
Proof.
  split.
  - intros e m h Hin. rewrite ShowDialog_run.
    unfold handles in Hin. destruct (child_dialogs_ m); [contradiction|].
    reflexivity.
  - intros m Hr. induction Hr as [delegate|m op e m' t Hr IH Hfresh Hrun].
    + constructor.
    + eapply exec_keeps_handles_unique; eauto.
Qed.

Lemma C2_witness :
  run (ShowDialog 7) (mkEnv true None true) (mkManager true [DialogState_new 7] false)
  = Ok (tt, push_back (DialogState_new 7) (mkManager true [DialogState_new 7] false),
        [NativeManager_ManageDialog 7])
  /\ NoDup (handles (mkManager true [DialogState_new 7] false)).
Proof.
  split.
  - apply (proj1 C2_ShowDialog_appends_and_fresh_shows_keep_handles_unique).
    simpl. left. reflexivity.
  - apply (proj2 C2_ShowDialog_appends_and_fresh_shows_keep_handles_unique).
    apply reachable_fresh_step with (m := initial true) (op := op_ShowDialog 7)
      (e := mkEnv true None true)
      (t := [NativeManager_ManageDialog 7; NativeManager_ShowDialog 7]).
    + apply reachable_fresh_initial.
    + simpl. intros [].
    + reflexivity.
Defined.

(** C3, as stated, fails: on an empty queue, with DCHECKs compiled in,
    [SetPreventCloseOnLoadStart] for the absent dialog 5 does not return. *)
Lemma C3_counterexample_SetPreventCloseOnLoadStart_absent :
  ~ In 5 (handles (initial true))
  /\ run (SetPreventCloseOnLoadStart 5 false)
         (mkEnv true (Some (mkWebContents true)) true) (initial true)
     = Abort DcheckFailure
  /\ (forall m' t,
         run (SetPreventCloseOnLoadStart 5 false)
             (mkEnv true (Some (mkWebContents true)) true) (initial true)
         <> Ok (tt, m', t)).
Proof.
  split; [simpl; tauto|]. split; [reflexivity|]. intros m' t. discriminate.
Qed.

(** C3, amended.  For a dialog that is not queued, [WillClose] returns having
    changed nothing and called nobody, whereas [SetPreventCloseOnLoadStart]
    violates its DCHECK: where DCHECKs are compiled in it is fatal. *)
Theorem C3_absent_dialog_WillClose_noop_SetPrevent_dcheck :
  forall e m h prevent,
    ~ In h (handles m) ->
    run (WillClose h) e m = Ok (tt, m, [])
    /\ (dcheck_is_on e = true ->
        run (SetPreventCloseOnLoadStart h prevent) e m = Abort DcheckFailure).
Proof.
  intros e m h prevent Habs. apply find_from_absent in Habs. split.
  - rewrite WillClose_run. cbv zeta. rewrite Habs, Nat.eqb_refl. reflexivity.
  - intros Hon. rewrite SetPreventCloseOnLoadStart_run. cbv zeta.
    rewrite Habs, Nat.eqb_refl, Hon. reflexivity.
Qed.

Lemma C3_witness :
  run (WillClose 5) (mkEnv true (Some (mkWebContents true)) true)
      (mkManager true [DialogState_new 1; DialogState_new 2] false)
  = Ok (tt, mkManager true [DialogState_new 1; DialogState_new 2] false, [])
  /\ run (SetPreventCloseOnLoadStart 5 false)
         (mkEnv true (Some (mkWebContents true)) true)
         (mkManager true [DialogState_new 1; DialogState_new 2] false)
     = Abort DcheckFailure.
Proof.
  assert (Habs : ~ In 5 (handles (mkManager true [DialogState_new 1; DialogState_new 2] false))).
  { simpl. intros [H|[H|[]]]; discriminate H. }
  split.
  - exact (proj1 (@C3_absent_dialog_WillClose_noop_SetPrevent_dcheck
                    (mkEnv true (Some (mkWebContents true)) true) _ 5 false Habs)).
  - exact (proj2 (@C3_absent_dialog_WillClose_noop_SetPrevent_dcheck
                    (mkEnv true (Some (mkWebContents true)) true) _ 5 false Habs)
                 eq_refl).
Defined.

(** C4.  From an empty queue, with a delegate that reports the WebContents
    visible: [ShowDialog A] shows A and blocks the host; [ShowDialog B] only
    hands B to the native manager; a dialog is showing; [WillClose A] removes
    A and shows B, the host staying blocked; [WillClose B] empties the queue
    and unblocks the host. *)
Theorem C4_show_A_show_B_close_A_close_B :
  forall (A B : NativeWebContentsModalDialog) (dcheck rvh : bool),
    let e := mkEnv dcheck (Some (mkWebContents rvh)) true in
    let host blocked :=
      (if rvh then [RenderViewHost_SetIgnoreInputEvents blocked] else [])
      ++ [Delegate_SetWebContentsBlocked blocked] in
    let m1 := mkManager true [DialogState_new A] false in
    let m2 := mkManager true [DialogState_new A; DialogState_new B] false in
    let m3 := mkManager true [DialogState_new B] false in
    run (ShowDialog A) e (initial true)
    = Ok (tt, m1, [NativeManager_ManageDialog A; NativeManager_ShowDialog A]
                  ++ host true)
    /\ run (ShowDialog B) e m1 = Ok (tt, m2, [NativeManager_ManageDialog B])
    /\ run IsShowingDialog e m2 = Ok (true, m2, [])
    /\ run (WillClose A) e m2
       = Ok (tt, m3, [NativeManager_ShowDialog B] ++ host true)
    /\ run (WillClose B) e m3 = Ok (tt, initial true, host false).
Proof.
  intros A B dcheck rvh e host m1 m2 m3. subst e host m1 m2 m3.
  split; [|split; [|split; [|split]]].
  - rewrite ShowDialog_run. reflexivity.
  - rewrite ShowDialog_run. reflexivity.
  - reflexivity.
  - rewrite WillClose_run. cbn [child_dialogs_ find_from dialog DialogState_new].
    rewrite Z.eqb_refl. reflexivity.
  - rewrite WillClose_run. cbn [child_dialogs_ find_from dialog DialogState_new].
    rewrite Z.eqb_refl. reflexivity.
Qed.

(** The close requests of a bulk close: one per queued dialog, front
    first. *)
Lemma close_all_calls_close_requests e m l :
  filter is_native_close (close_all_calls e m l)
  = map (fun s => NativeManager_CloseDialog (dialog s)) l.
Proof.
  induction l as [|s l IH]; [reflexivity|].
  cbn [close_all_calls filter is_native_close map]. f_equal.
  rewrite filter_app, IH.
  replace (filter is_native_close
             (block_calls e m (negb (Nat.eqb (length l) 0)))) with (@nil Call);
    [reflexivity|].
  unfold block_calls. destruct (web_contents e) as [c|]; [|reflexivity].
  destruct (GetRenderViewHost c), (delegate_ m); reflexivity.
Qed.

(** The delegate is unblocked when the last dialog goes, provided there is a
    delegate and the WebContents is attached; otherwise it hears nothing. *)
Lemma close_all_calls_unblock_count e m l :
  l <> [] ->
  length (filter is_delegate_unblock (close_all_calls e m l))
  = if delegate_ m && attached e then 1%nat else 0%nat.
Proof.
  intros Hne. induction l as [|s l IH]; [congruence|].
  cbn [close_all_calls filter is_delegate_unblock].
  rewrite filter_app, length_app.
  destruct l as [|s' l].
  - cbn [close_all_calls filter length Nat.eqb negb]. rewrite Nat.add_0_r.
    unfold block_calls, attached. destruct (web_contents e) as [c|].
    + destruct (GetRenderViewHost c), (delegate_ m); reflexivity.
    + now rewrite andb_false_r.
  - rewrite IH by congruence.
    replace (length (filter is_delegate_unblock
                       (block_calls e m (negb (Nat.eqb (length (s' :: l)) 0)))))
      with 0%nat; [reflexivity|].
    cbn [length Nat.eqb negb]. unfold block_calls.
    destruct (web_contents e) as [c|]; [|reflexivity].
    destruct (GetRenderViewHost c), (delegate_ m); reflexivity.
Qed.

(** C5, as stated, fails: on a queue of three dialogs the delegate is not
    unblocked at all when the WebContents has already disconnected, nor when
    the manager has no delegate. *)
Lemma C5_counterexample_detached_or_no_delegate :
  (exists t,
      run (CloseAllDialogs 3) (mkEnv true None true)
          (mkManager true [DialogState_new 1; DialogState_new 2; DialogState_new 3] false)
      = Ok (tt, mkManager true [] false, t)
      /\ length (filter is_delegate_unblock t) = 0%nat)
  /\ (exists t,
         run (CloseAllDialogs 3) (mkEnv true (Some (mkWebContents true)) true)
             (mkManager false [DialogState_new 1; DialogState_new 2; DialogState_new 3] false)
         = Ok (tt, mkManager false [] false, t)
         /\ length (filter is_delegate_unblock t) = 0%nat).
Proof.
  split; eexists; split; reflexivity.
Qed.

(** C5, amended.  On a non-empty queue [CloseAllDialogs] returns once the
    fuel covers the queue; the queue is then empty and the guard cleared,
    one close request was sent per queued dialog, front first, and no show
    request.  The delegate was unblocked exactly once when the manager has a
    delegate and the WebContents is attached, and not at all otherwise. *)
Theorem C5_CloseAllDialogs_empties_without_show_and_unblocks_attached_delegate_once :
  forall e m fuel,
    child_dialogs_ m <> [] ->
    (length (child_dialogs_ m) <= fuel)%nat ->
    exists t,
      run (CloseAllDialogs fuel) e m = Ok (tt, mkManager (delegate_ m) [] false, t)
      /\ filter is_native_close t
         = map (fun s => NativeManager_CloseDialog (dialog s)) (child_dialogs_ m)
      /\ existsb is_native_show t = false
      /\ length (filter is_delegate_unblock t)
         = if delegate_ m && attached e then 1%nat else 0%nat.
Proof.
  intros e m fuel Hne Hlen.
  exists (close_all_calls e m (child_dialogs_ m)). split; [|split; [|split]].
  - now rewrite CloseAllDialogs_run by exact Hlen.
  - apply close_all_calls_close_requests.
  - apply close_all_calls_no_show.
  - now apply close_all_calls_unblock_count.
Qed.

Lemma C5_witness :
  exists t,
    run (CloseAllDialogs 3) (mkEnv true (Some (mkWebContents true)) true)
        (mkManager true [DialogState_new 1; DialogState_new 2; DialogState_new 3] false)
    = Ok (tt, mkManager true [] false, t)
    /\ filter is_native_close t
       = [NativeManager_CloseDialog 1; NativeManager_CloseDialog 2;
          NativeManager_CloseDialog 3]
    /\ existsb is_native_show t = false
    /\ length (filter is_delegate_unblock t) = 1%nat.
Proof.
  apply (@C5_CloseAllDialogs_empties_without_show_and_unblocks_attached_delegate_once
           (mkEnv true (Some (mkWebContents true)) true)
           (mkManager true [DialogState_new 1; DialogState_new 2; DialogState_new 3] false)
           3%nat).
  - discriminate.
  - simpl. lia.
Defined.



(** ** Every operation, by its effect *)

Lemma close_while_not_empty_fuel e fuel : forall m r,
  closing_all_dialogs_ m = true ->
  run (close_while_not_empty fuel) e m = Ok r ->
  (length (child_dialogs_ m) <= fuel)%nat.
Proof.
  induction fuel as [|fuel IH]; intros [dg l c] r Hc H;
    cbn [child_dialogs_ closing_all_dialogs_] in *; subst c;
    destruct l as [|s l]; cbn [length]; try lia.
  - cbv in H. discriminate.
  - cbn [close_while_not_empty] in H. rewrite run_bind in H.
    change (run (gets child_dialogs_) e (mkManager dg (s :: l) true))
      with (Ok (s :: l, mkManager dg (s :: l) true, @nil Call)) in H.
    cbn beta iota in H. rewrite run_bind in H.
    unfold native_manager_CloseDialog at 1 in H. rewrite run_bind in H.
    change (run (call (NativeManager_CloseDialog (dialog s))) e (mkManager dg (s :: l) true))
      with (Ok (tt, mkManager dg (s :: l) true, [NativeManager_CloseDialog (dialog s)])) in H.
    cbn beta iota in H.
    rewrite (@WillClose_front_while_closing e (mkManager dg (s :: l) true) s l)
      in H by reflexivity.
    destruct (run (close_while_not_empty fuel) e
                (set_child_dialogs l (mkManager dg (s :: l) true)))
      as [r'|f] eqn:Hloop; [|discriminate].
    apply IH in Hloop; [|reflexivity]. cbn [set_child_dialogs child_dialogs_] in Hloop.
    lia.
Qed.

Lemma CloseAllDialogs_inversion e m fuel m' t :
  run (CloseAllDialogs fuel) e m = Ok (tt, m', t) ->
  m' = mkManager (delegate_ m) [] false
  /\ t = close_all_calls e m (child_dialogs_ m).
Proof.
  intros H.
  assert (Hlen : (length (child_dialogs_ m) <= fuel)%nat).
  { unfold CloseAllDialogs in H. rewrite run_bind in H.
    change (run (modify (set_closing_all_dialogs true)) e m)
      with (Ok (tt, set_closing_all_dialogs true m, @nil Call)) in H.
    cbn beta iota in H. rewrite run_bind in H.
    destruct (run (close_while_not_empty fuel) e (set_closing_all_dialogs true m))
      as [r|f] eqn:Hloop; [|discriminate].
    apply close_while_not_empty_fuel in Hloop; [exact Hloop | reflexivity]. }
  rewrite CloseAllDialogs_run in H by exact Hlen.
  inversion H; subst. split; reflexivity.
Qed.

Lemma Observe_LOAD_START_run e m :
  run (Observe NOTIFICATION_LOAD_START) e m =
  match child_dialogs_ m with
  | [] => Ok (tt, m, [])
  | s :: _ =>
      if prevent_close_on_load_start s then Ok (tt, m, [])
      else
        match run (WillClose (dialog s)) e m with
        | Ok (_, m', t) => Ok (tt, m', NativeManager_CloseDialog (dialog s) :: t)
        | Abort f => Abort f
        end
  end.
Proof.
  cbn [Observe]. rewrite run_bind.
  change (run (gets child_dialogs_) e m) with (Ok (child_dialogs_ m, m, @nil Call)).
  cbn beta iota. destruct (child_dialogs_ m) as [|s l]; [reflexivity|].
  destruct (prevent_close_on_load_start s); cbn [negb]; [reflexivity|].
  unfold native_manager_CloseDialog. rewrite run_bind.
  change (run (call (NativeManager_CloseDialog (dialog s))) e m)
    with (Ok (tt, m, [NativeManager_CloseDialog (dialog s)])).
  cbn beta iota.
  destruct (run (WillClose (dialog s)) e m) as [[[u m1] t1]|f]; [|reflexivity].
  destruct u. reflexivity.
Qed.

Lemma Observe_VISIBILITY_run e m visible :
  run (Observe (NOTIFICATION_WEB_CONTENTS_VISIBILITY_CHANGED visible)) e m =
  Ok (tt, m,
      match child_dialogs_ m with
      | [] => []
      | s :: _ =>
          [if visible then NativeManager_ShowDialog (dialog s)
           else NativeManager_HideDialog (dialog s)]
      end).
Proof.
  cbn [Observe]. rewrite run_bind.
  change (run (gets child_dialogs_) e m) with (Ok (child_dialogs_ m, m, @nil Call)).
  cbn beta iota. destruct (child_dialogs_ m) as [|s l]; [reflexivity|].
  destruct visible; reflexivity.
Qed.

Lemma FocusTopmostDialog_run e m :
  run FocusTopmostDialog e m =
  match child_dialogs_ m with
  | [] => Abort (if dcheck_is_on e then DcheckFailure else InvalidDereference)
  | s :: _ => Ok (tt, m, [NativeManager_FocusDialog (dialog s)])
  end.
Proof.
  unfold FocusTopmostDialog. run_method.
  destruct (child_dialogs_ m) as [|s l] eqn:Hl; destruct (dcheck_is_on e);
    cbn; rewrite ?Hl; reflexivity.
Qed.

Lemma DidGetIgnoredUIEvent_run e m :
  run DidGetIgnoredUIEvent e m =
  Ok (tt, m,
      match child_dialogs_ m with
      | [] => []
      | s :: _ => [NativeManager_FocusDialog (dialog s)]
      end).
Proof.
  unfold DidGetIgnoredUIEvent. run_method.
  destruct (child_dialogs_ m) as [|s l]; reflexivity.
Qed.

(** What an operation that returns has done, operation by operation. *)
Lemma exec_inversion op e m m' t :
  run (exec op) e m = Ok (tt, m', t) ->
  match op with
  | op_ShowDialog d =>
      m' = push_back (DialogState_new d) m
      /\ t = NativeManager_ManageDialog d
             :: (if Nat.eqb (length (child_dialogs_ m)) 0
                 then (if delegate_ m && IsWebContentsVisible e
                       then [NativeManager_ShowDialog d] else [])
                      ++ block_calls e m true
                 else [])
  | op_FocusTopmostDialog =>
      m' = m /\ exists s rest, child_dialogs_ m = s :: rest
                               /\ t = [NativeManager_FocusDialog (dialog s)]
  | op_SetPreventCloseOnLoadStart d _ =>
      (find_from (child_dialogs_ m) d < length (child_dialogs_ m))%nat
      /\ m' = set_child_dialogs
                (set_prevent_at (find_from (child_dialogs_ m) d) true (child_dialogs_ m)) m
      /\ t = []
  | op_WillClose d => run (WillClose d) e m = Ok (tt, m', t)
  | op_Observe (NOTIFICATION_WEB_CONTENTS_VISIBILITY_CHANGED visible) =>
      m' = m
      /\ t = match child_dialogs_ m with
             | [] => []
             | s :: _ => [if visible then NativeManager_ShowDialog (dialog s)
                          else NativeManager_HideDialog (dialog s)]
             end
  | op_Observe NOTIFICATION_LOAD_START =>
      match child_dialogs_ m with
      | [] => m' = m /\ t = []
      | s :: _ =>
          if prevent_close_on_load_start s then m' = m /\ t = []
          else exists t', t = NativeManager_CloseDialog (dialog s) :: t'
                          /\ run (WillClose (dialog s)) e m = Ok (tt, m', t')
      end
  | op_Observe NOTIFICATION_other => m' = m /\ t = []
  | op_CloseAllDialogs _ | op_WebContentsDestroyed _ =>
      m' = mkManager (delegate_ m) [] false
      /\ t = close_all_calls e m (child_dialogs_ m)
  | op_DidGetIgnoredUIEvent =>
      m' = m
      /\ t = match child_dialogs_ m with
             | [] => []
             | s :: _ => [NativeManager_FocusDialog (dialog s)]
             end
  end.
Proof.
  intros H. destruct op as [d| |d prevent|d|type|fuel| |fuel]; cbn [exec] in H.
  - rewrite ShowDialog_run in H. inversion H; subst. split; reflexivity.
  - rewrite FocusTopmostDialog_run in H.
    destruct (child_dialogs_ m) as [|s rest]; [discriminate|].
    inversion H; subst. split; [reflexivity|]. now exists s, rest.
  - rewrite SetPreventCloseOnLoadStart_run in H. cbv zeta in H.
    destruct (Nat.eqb_spec (find_from (child_dialogs_ m) d) (length (child_dialogs_ m)))
      as [Heq|Hne]; [discriminate|].
    inversion H; subst. pose proof (find_from_le (child_dialogs_ m) d).
    repeat split. lia.
  - exact H.
  - destruct type as [visible| |].
    + rewrite Observe_VISIBILITY_run in H. inversion H; subst. split; reflexivity.
    + rewrite Observe_LOAD_START_run in H.
      destruct (child_dialogs_ m) as [|s rest].
      * inversion H; subst. split; reflexivity.
      * destruct (prevent_close_on_load_start s).
        -- inversion H; subst. split; reflexivity.
        -- destruct (run (WillClose (dialog s)) e m) as [[[u m1] t1]|f];
             [|discriminate].
           destruct u. inversion H; subst. now exists t1.
    + cbv in H. inversion H; subst. split; reflexivity.
  - now apply CloseAllDialogs_inversion in H.
  - rewrite DidGetIgnoredUIEvent_run in H. inversion H; subst. split; reflexivity.
  - unfold WebContentsDestroyed in H. now apply CloseAllDialogs_inversion in H.
Qed.

(** ** The delegate is blocked exactly while a dialog is queued *)

Lemma delegate_blocked_app b t1 t2 :
  delegate_blocked b (t1 ++ t2) = delegate_blocked (delegate_blocked b t1) t2.
Proof.
  revert b. induction t1 as [|c t1 IH]; intros b; [reflexivity|].
  destruct c; cbn [app delegate_blocked]; apply IH.
Qed.

Lemma delegate_blocked_block_calls e m b v :
  delegate_ m = true -> web_contents e <> None ->
  delegate_blocked b (block_calls e m v) = v.
Proof.
  intros Hd Hw. unfold block_calls. rewrite Hd.
  destruct (web_contents e) as [c|]; [|congruence].
  destruct (GetRenderViewHost c); reflexivity.
Qed.

Lemma delegate_blocked_close_all_calls e m b l :
  delegate_ m = true -> web_contents e <> None ->
  delegate_blocked b (close_all_calls e m l)
  = match l with [] => b | _ :: _ => false end.
Proof.
  intros Hd Hw. revert b. induction l as [|s l IH]; intros b; [reflexivity|].
  cbn [close_all_calls delegate_blocked].
  rewrite delegate_blocked_app, delegate_blocked_block_calls by assumption.
  rewrite IH. destruct l; reflexivity.
Qed.

Lemma WillClose_blocked e m d m' t :
  delegate_ m = true -> web_contents e <> None ->
  run (WillClose d) e m = Ok (tt, m', t) ->
  delegate_blocked (negb (Nat.eqb (length (child_dialogs_ m)) 0)) t
  = negb (Nat.eqb (length (child_dialogs_ m')) 0)
  /\ delegate_ m' = true.
Proof.
  intros Hd Hw H. rewrite WillClose_run in H. cbv zeta in H.
  destruct (Nat.eqb (find_from (child_dialogs_ m) d) (length (child_dialogs_ m))).
  - inversion H; subst. split; [reflexivity | assumption].
  - inversion H; subst. cbn [child_dialogs_ set_child_dialogs delegate_].
    split; [|assumption].
    rewrite delegate_blocked_app. now apply delegate_blocked_block_calls.
Qed.

Lemma exec_blocked op e m m' t :
  delegate_ m = true -> web_contents e <> None ->
  run (exec op) e m = Ok (tt, m', t) ->
  delegate_blocked (negb (Nat.eqb (length (child_dialogs_ m)) 0)) t
  = negb (Nat.eqb (length (child_dialogs_ m')) 0)
  /\ delegate_ m' = true.
Proof.
  intros Hd Hw H. apply exec_inversion in H.
  destruct op as [d| |d prevent|d|type|fuel| |fuel].
  - destruct H as [-> ->]. split; [|exact Hd].
    cbn [push_back set_child_dialogs child_dialogs_]. rewrite length_app.
    cbn [length]. replace (length (child_dialogs_ m) + 1)%nat
      with (S (length (child_dialogs_ m))) by lia.
    cbn [Nat.eqb negb delegate_blocked].
    destruct (Nat.eqb (length (child_dialogs_ m)) 0); [|reflexivity].
    rewrite delegate_blocked_app. now apply delegate_blocked_block_calls.
  - destruct H as [-> (s & rest & Hl & ->)]. rewrite Hl. split; [reflexivity|exact Hd].
  - destruct H as (Hlt & -> & ->). split; [|exact Hd].
    cbn [set_child_dialogs child_dialogs_ delegate_blocked].
    f_equal. f_equal.
    clear. generalize (find_from (child_dialogs_ m) d).
    induction (child_dialogs_ m) as [|x l IH]; intros [|i]; simpl; auto.
  - eapply WillClose_blocked; eauto.
  - destruct type as [visible| |].
    + destruct H as [-> ->]. split; [|exact Hd].
      destruct (child_dialogs_ m); [reflexivity|]. destruct visible; reflexivity.
    + destruct (child_dialogs_ m) as [|s rest] eqn:Hl.
      * destruct H as [-> ->]. rewrite Hl. split; [reflexivity|exact Hd].
      * destruct (prevent_close_on_load_start s).
        -- destruct H as [-> ->]. rewrite Hl. split; [reflexivity|exact Hd].
        -- destruct H as (t' & -> & H). cbn [delegate_blocked].
           rewrite <- Hl. eapply WillClose_blocked; eauto.
    + destruct H as [-> ->]. split; [reflexivity|exact Hd].
  - destruct H as [-> ->]. split; [|exact Hd].
    rewrite delegate_blocked_close_all_calls by assumption.
    destruct (child_dialogs_ m); reflexivity.
  - destruct H as [-> ->]. split; [|exact Hd].
    destruct (child_dialogs_ m); reflexivity.
  - destruct H as [-> ->]. split; [|exact Hd].
    rewrite delegate_blocked_close_all_calls by assumption.
    destruct (child_dialogs_ m); reflexivity.
Qed.

Lemma run_ops_blocked ops : forall m m' t,
  delegate_ m = true ->
  Forall (fun eo => web_contents (fst eo) <> None) ops ->
  run_ops ops m = Ok (m', t) ->
  delegate_blocked (negb (Nat.eqb (length (child_dialogs_ m)) 0)) t
  = negb (Nat.eqb (length (child_dialogs_ m')) 0).
Proof.
  induction ops as [|[e op] ops IH]; intros m m' t Hd Hall H; cbn [run_ops] in H.
  - inversion H; subst. reflexivity.
  - inversion Hall as [|? ? Hw Hrest]; subst. cbn [fst] in Hw.
    destruct (run (exec op) e m) as [[[u m1] t1]|f] eqn:Hop; [|discriminate].
    destruct (run_ops ops m1) as [[m2 t2]|f] eqn:Hops; [|discriminate].
    inversion H; subst. destruct u.
    destruct (@exec_blocked op e m m1 t1 Hd Hw Hop) as [Hb Hd1].
    rewrite delegate_blocked_app, Hb. eapply IH; eauto.
Qed.

(** X1.  From a fresh manager with a delegate, after any sequence of
    operations that return, each called with the WebContents attached, the
    delegate has last been told "blocked" exactly when a dialog is queued:
    what it was last told is what [IsShowingDialog] answers. *)
Theorem X1_delegate_blocked_iff_showing :
  forall ops e m t,
    Forall (fun eo => web_contents (fst eo) <> None) ops ->
    run_ops ops (initial true) = Ok (m, t) ->
    run IsShowingDialog e m = Ok (delegate_blocked false t, m, []).
Proof.
  intros ops e m t Hall H.
  pose proof (@run_ops_blocked ops (initial true) m t eq_refl Hall H) as Hb.
  cbn in Hb. rewrite Hb. reflexivity.
Qed.

Lemma X1_witness :
  run IsShowingDialog (mkEnv true None false)
      (mkManager true [DialogState_new 2] false)
  = Ok (delegate_blocked false
          [NativeManager_ManageDialog 1; NativeManager_ShowDialog 1;
           RenderViewHost_SetIgnoreInputEvents true;
           Delegate_SetWebContentsBlocked true;
           NativeManager_ManageDialog 2;
           NativeManager_ShowDialog 2;
           RenderViewHost_SetIgnoreInputEvents true;
           Delegate_SetWebContentsBlocked true],
        mkManager true [DialogState_new 2] false, []).
Proof.
  apply (@X1_delegate_blocked_iff_showing
           [(mkEnv true (Some (mkWebContents true)) true, op_ShowDialog 1);
            (mkEnv true (Some (mkWebContents true)) true, op_ShowDialog 2);
            (mkEnv true (Some (mkWebContents true)) true, op_WillClose 1)]).
  - repeat constructor; discriminate.
  - reflexivity.
Defined.

(** ** Requests to the adapter *)

Lemma block_calls_no_request e m v c :
  In c (block_calls e m v) -> request_about c = None.
Proof.
  unfold block_calls. destruct (web_contents e) as [w|]; [|intros []].
  destruct (GetRenderViewHost w), (delegate_ m); simpl;
    intros H; repeat (destruct H as [<-|H]; [reflexivity|]); destruct H.
Qed.

Lemma subsequence_refl A (l : list A) : subsequence l l.
Proof. induction l; constructor; assumption. Qed.

Lemma subsequence_In A (l1 l2 : list A) x :
  subsequence l1 l2 -> In x l1 -> In x l2.
Proof.
  induction 1 as [|y l1 l2 _ IH|y l1 l2 _ IH]; simpl; intros Hin.
  - assumption.
  - right. now apply IH.
  - destruct Hin as [->|Hin]; [now left | right; now apply IH].
Qed.

Lemma subsequence_nil_l A (l : list A) : subsequence [] l.
Proof. induction l; constructor; assumption. Qed.

Lemma erase_subsequence i : forall l : list DialogState,
  subsequence (map dialog (erase i l)) (map dialog l).
Proof.
  induction i as [|i IH]; intros [|x l]; simpl.
  - constructor.
  - apply subsequence_skip, subsequence_refl.
  - constructor.
  - apply subsequence_keep, IH.
Qed.

Lemma WillClose_subsequence e m d m' t :
  run (WillClose d) e m = Ok (tt, m', t) ->
  subsequence (handles m') (handles m).
Proof.
  intros H. rewrite WillClose_run in H. cbv zeta in H.
  destruct (Nat.eqb (find_from (child_dialogs_ m) d) (length (child_dialogs_ m)));
    inversion H; subst.
  - apply subsequence_refl.
  - apply erase_subsequence.
Qed.

(** A show request sent by [WillClose] is for the new front dialog, and it
    sends no other request. *)
Lemma WillClose_requests e m d m' t c x :
  run (WillClose d) e m = Ok (tt, m', t) ->
  In c t -> request_about c = Some x ->
  c = NativeManager_ShowDialog x /\ front_handle m' = Some x.
Proof.
  intros H Hin Hx. rewrite WillClose_run in H. cbv zeta in H.
  destruct (Nat.eqb (find_from (child_dialogs_ m) d) (length (child_dialogs_ m)));
    inversion H; subst; [destruct Hin|].
  apply in_app_or in Hin. destruct Hin as [Hin|Hin].
  - unfold front_handle. cbn [child_dialogs_ set_child_dialogs].
    destruct (erase (find_from (child_dialogs_ m) d) (child_dialogs_ m)) as [|s l'];
      [destruct Hin|].
    destruct (Nat.eqb (find_from (child_dialogs_ m) d) 0 && negb (closing_all_dialogs_ m));
      [|destruct Hin].
    destruct Hin as [<-|[]]. cbn in Hx. inversion Hx; subst. split; reflexivity.
  - apply block_calls_no_request in Hin. congruence.
Qed.

Lemma close_all_calls_requests e m l c x :
  In c (close_all_calls e m l) -> request_about c = Some x ->
  c = NativeManager_CloseDialog x /\ In x (map dialog l).
Proof.
  induction l as [|s l IH]; cbn [close_all_calls]; intros Hin Hx; [destruct Hin|].
  destruct Hin as [<-|Hin].
  - cbn in Hx. inversion Hx; subst. split; [reflexivity | now left].
  - apply in_app_or in Hin. destruct Hin as [Hin|Hin].
    + apply block_calls_no_request in Hin. congruence.
    + destruct (IH Hin Hx) as [-> Hl]. split; [reflexivity | now right].
Qed.

(** X2.  Whatever the operation, a show request goes to the dialog that is
    at the front of the queue when the operation returns. *)
Theorem X2_show_requests_are_for_the_front_dialog :
  forall op e m m' t d,
    run (exec op) e m = Ok (tt, m', t) ->
    In (NativeManager_ShowDialog d) t ->
    front_handle m' = Some d.
Proof.
  intros op e m m' t d H Hin. apply exec_inversion in H.
  destruct op as [d0| |d0 prevent|d0|type|fuel| |fuel].
  - destruct H as [-> ->]. destruct Hin as [Hin|Hin]; [discriminate|].
    unfold front_handle, push_back. cbn [child_dialogs_ set_child_dialogs].
    destruct (child_dialogs_ m) as [|s l]; [|destruct Hin].
    cbn [Nat.eqb length] in Hin. apply in_app_or in Hin.
    destruct Hin as [Hin|Hin].
    + destruct (delegate_ m && IsWebContentsVisible e); [|destruct Hin].
      destruct Hin as [Heq|[]]. inversion Heq; subst. reflexivity.
    + apply block_calls_no_request in Hin. discriminate.
  - destruct H as [-> (s & rest & Hl & ->)]. destruct Hin as [Heq|[]]. discriminate.
  - destruct H as (_ & _ & ->). destruct Hin.
  - now destruct (@WillClose_requests e m d0 m' t (NativeManager_ShowDialog d) d
                    H Hin eq_refl).
  - destruct type as [visible| |].
    + destruct H as [-> ->]. unfold front_handle.
      destruct (child_dialogs_ m) as [|s l]; [destruct Hin|].
      destruct visible; destruct Hin as [Heq|[]]; inversion Heq; subst. reflexivity.
    + destruct (child_dialogs_ m) as [|s rest] eqn:Hl.
      * destruct H as [-> ->]. destruct Hin.
      * destruct (prevent_close_on_load_start s).
        -- destruct H as [-> ->]. destruct Hin.
        -- destruct H as (t' & -> & H). destruct Hin as [Heq|Hin]; [discriminate|].
           now destruct (@WillClose_requests e m (dialog s) m' t'
                           (NativeManager_ShowDialog d) d H Hin eq_refl).
    + destruct H as [-> ->]. destruct Hin.
  - destruct H as [-> ->]. exfalso.
    pose proof (close_all_calls_no_show e m (child_dialogs_ m)) as Hno.
    assert (Hex : existsb is_native_show (close_all_calls e m (child_dialogs_ m)) = true).
    { apply existsb_exists. eexists. split; [exact Hin | reflexivity]. }
    congruence.
  - destruct H as [-> ->]. unfold front_handle.
    destruct (child_dialogs_ m) as [|s l]; [destruct Hin|].
    destruct Hin as [Heq|[]]. discriminate.
  - destruct H as [-> ->]. exfalso.
    pose proof (close_all_calls_no_show e m (child_dialogs_ m)) as Hno.
    assert (Hex : existsb is_native_show (close_all_calls e m (child_dialogs_ m)) = true).
    { apply existsb_exists. eexists. split; [exact Hin | reflexivity]. }
    congruence.
Qed.

Lemma X2_witness :
  front_handle (mkManager true [DialogState_new 2] false) = Some 2.
Proof.
  apply (@X2_show_requests_are_for_the_front_dialog
           (op_WillClose 1) (mkEnv true (Some (mkWebContents true)) true)
           (mkManager true [DialogState_new 1; DialogState_new 2] false)
           (mkManager true [DialogState_new 2] false)
           [NativeManager_ShowDialog 2; RenderViewHost_SetIgnoreInputEvents true;
            Delegate_SetWebContentsBlocked true] 2).
  - reflexivity.
  - simpl. left. reflexivity.
Defined.

(** X3.  The manager never sends the adapter a show, hide, close or focus
    request about a dialog that is not in the queue: the dialog was queued
    when the operation started, or the operation is the [ShowDialog] that
    queues it. *)
Theorem X3_requests_only_about_queued_dialogs :
  forall op e m m' t c d,
    run (exec op) e m = Ok (tt, m', t) ->
    In c t -> request_about c = Some d ->
    In d (handles m) \/ op = op_ShowDialog d.
Proof.
  intros op e m m' t c d H Hin Hd. pose proof H as Hrun.
  apply exec_inversion in H.
  destruct op as [d0| |d0 prevent|d0|type|fuel| |fuel].
  - right. destruct H as [-> ->]. destruct Hin as [<-|Hin]; [discriminate|].
    destruct (Nat.eqb (length (child_dialogs_ m)) 0); [|destruct Hin].
    apply in_app_or in Hin. destruct Hin as [Hin|Hin].
    + destruct (delegate_ m && IsWebContentsVisible e); [|destruct Hin].
      destruct Hin as [<-|[]]. cbn in Hd. inversion Hd; subst. reflexivity.
    + apply block_calls_no_request in Hin. congruence.
  - left. destruct H as [-> (s & rest & Hl & ->)]. destruct Hin as [<-|[]].
    cbn in Hd. inversion Hd; subst. unfold handles. rewrite Hl. now left.
  - destruct H as (_ & _ & ->). destruct Hin.
  - left. destruct (@WillClose_requests _ _ _ _ _ _ _ H Hin Hd) as [_ Hf].
    apply (@subsequence_In _ _ _ _ (@WillClose_subsequence _ _ _ _ _ H)).
    unfold front_handle in Hf. unfold handles.
    destruct (child_dialogs_ m') as [|s l]; [discriminate|].
    inversion Hf; subst. now left.
  - left. destruct type as [visible| |].
    + destruct H as [-> ->]. unfold handles.
      destruct (child_dialogs_ m) as [|s l]; [destruct Hin|].
      destruct Hin as [<-|[]]. destruct visible; cbn in Hd; inversion Hd; subst;
        now left.
    + destruct (child_dialogs_ m) as [|s rest] eqn:Hl.
      * destruct H as [-> ->]. destruct Hin.
      * destruct (prevent_close_on_load_start s).
        -- destruct H as [-> ->]. destruct Hin.
        -- destruct H as (t' & -> & H). destruct Hin as [<-|Hin].
           ++ cbn in Hd. inversion Hd; subst. unfold handles. rewrite Hl. now left.
           ++ destruct (@WillClose_requests _ _ _ _ _ _ _ H Hin Hd) as [_ Hf].
              apply (@subsequence_In _ _ _ _ (@WillClose_subsequence _ _ _ _ _ H)).
              unfold front_handle in Hf. unfold handles.
              destruct (child_dialogs_ m') as [|s' l]; [discriminate|].
              inversion Hf; subst. now left.
    + destruct H as [-> ->]. destruct Hin.
  - left. destruct H as [-> ->].
    now destruct (@close_all_calls_requests _ _ _ _ _ Hin Hd).
  - left. destruct H as [-> ->]. unfold handles.
    destruct (child_dialogs_ m) as [|s l]; [destruct Hin|].
    destruct Hin as [<-|[]]. cbn in Hd. inversion Hd; subst. now left.
  - left. destruct H as [-> ->].
    now destruct (@close_all_calls_requests _ _ _ _ _ Hin Hd).
Qed.

Lemma X3_witness :
  In 1 (handles (mkManager true [DialogState_new 1; DialogState_new 2] false))
  \/ op_Observe NOTIFICATION_LOAD_START = op_ShowDialog 1.
Proof.
  apply (@X3_requests_only_about_queued_dialogs
           (op_Observe NOTIFICATION_LOAD_START)
           (mkEnv true (Some (mkWebContents true)) true)
           (mkManager true [DialogState_new 1; DialogState_new 2] false)
           (mkManager true [DialogState_new 2] false)
           [NativeManager_CloseDialog 1; NativeManager_ShowDialog 2;
            RenderViewHost_SetIgnoreInputEvents true;
            Delegate_SetWebContentsBlocked true]
           (NativeManager_CloseDialog 1) 1).
  - reflexivity.
  - simpl. left. reflexivity.
  - reflexivity.
Defined.

(** ** How the operations compose *)

Lemma find_from_app_new (l : list DialogState) d :
  ~ In d (map dialog l) -> find_from (l ++ [DialogState_new d]) d = length l.
Proof.
  induction l as [|x l IH]; simpl; intros Hn.
  - now rewrite Z.eqb_refl.
  - destruct (Z.eqb_spec (dialog x) d) as [Heq|Hne]; [tauto|].
    f_equal. apply IH. tauto.
Qed.

Lemma erase_app_last (l : list DialogState) x : erase (length l) (l ++ [x]) = l.
Proof. induction l as [|y l IH]; simpl; [reflexivity | now rewrite IH]. Qed.

(** X4.  Showing a dialog that is not queued and then closing it gives back
    the manager as it was: same queue, same flags, same guard. *)
Theorem X4_ShowDialog_then_WillClose_restores_the_manager :
  forall e m d,
    ~ In d (handles m) ->
    run (bind (ShowDialog d) (fun _ => WillClose d)) e m
    = Ok (tt, m,
          (NativeManager_ManageDialog d
           :: (if Nat.eqb (length (child_dialogs_ m)) 0
               then (if delegate_ m && IsWebContentsVisible e
                     then [NativeManager_ShowDialog d] else [])
                    ++ block_calls e m true
               else []))
          ++ block_calls e m (negb (Nat.eqb (length (child_dialogs_ m)) 0))).
Proof.
  intros e [dg l c] d Habs. unfold handles in Habs. cbn [child_dialogs_] in Habs.
  rewrite run_bind, ShowDialog_run. cbn beta iota.
  rewrite WillClose_run. cbv zeta.
  cbn [push_back set_child_dialogs child_dialogs_ closing_all_dialogs_ delegate_].
  rewrite (@find_from_app_new l d Habs), erase_app_last, length_app. cbn [length].
  destruct (Nat.eqb_spec (length l) (length l + 1)) as [Hx|_]; [lia|].
  destruct l as [|s l]; reflexivity.
Qed.

Lemma X4_witness :
  run (bind (ShowDialog 9) (fun _ => WillClose 9))
      (mkEnv true (Some (mkWebContents true)) true)
      (mkManager true [mkDialogState 1 true; DialogState_new 2] false)
  = Ok (tt, mkManager true [mkDialogState 1 true; DialogState_new 2] false,
        [NativeManager_ManageDialog 9; RenderViewHost_SetIgnoreInputEvents true;
         Delegate_SetWebContentsBlocked true]).
Proof.
  apply (@X4_ShowDialog_then_WillClose_restores_the_manager
           (mkEnv true (Some (mkWebContents true)) true)
           (mkManager true [mkDialogState 1 true; DialogState_new 2] false) 9).
  simpl. intros [H|[H|[]]]; discriminate H.
Defined.

(** X5.  Once [SetPreventCloseOnLoadStart] has been called for the front
    dialog, with either argument, a load start closes nothing and calls
    nobody: the dialog stays at the front, its flag set. *)
Theorem X5_pinned_front_dialog_survives_load_start :
  forall e m s rest prevent,
    child_dialogs_ m = s :: rest ->
    run (bind (SetPreventCloseOnLoadStart (dialog s) prevent)
              (fun _ => Observe NOTIFICATION_LOAD_START)) e m
    = Ok (tt, set_child_dialogs (mkDialogState (dialog s) true :: rest) m, []).
Proof.
  intros e m s rest prevent Hl.
  rewrite run_bind, SetPreventCloseOnLoadStart_run. cbv zeta. rewrite Hl.
  cbn [find_from length]. rewrite Z.eqb_refl. cbn [Nat.eqb set_prevent_at].
  rewrite Observe_LOAD_START_run. reflexivity.
Qed.

Lemma X5_witness :
  run (bind (SetPreventCloseOnLoadStart 1 false)
            (fun _ => Observe NOTIFICATION_LOAD_START))
      (mkEnv true (Some (mkWebContents true)) true)
      (mkManager true [DialogState_new 1; DialogState_new 2] false)
  = Ok (tt, mkManager true [mkDialogState 1 true; DialogState_new 2] false, []).
Proof.
  apply (@X5_pinned_front_dialog_survives_load_start
           (mkEnv true (Some (mkWebContents true)) true)
           (mkManager true [DialogState_new 1; DialogState_new 2] false)
           (DialogState_new 1) [DialogState_new 2] false).
  reflexivity.
Defined.

(** X6.  A load start, when the front dialog's flag is clear and no bulk
    close is under way, asks the adapter to close the front dialog; the
    dialog leaves the queue, the next one (if any) is shown, and the host is
    told whether it is still blocked. *)
Theorem X6_load_start_closes_unpinned_front_and_shows_next :
  forall e m s rest,
    child_dialogs_ m = s :: rest ->
    prevent_close_on_load_start s = false ->
    closing_all_dialogs_ m = false ->
    run (Observe NOTIFICATION_LOAD_START) e m
    = Ok (tt, set_child_dialogs rest m,
          NativeManager_CloseDialog (dialog s)
          :: match rest with
             | next :: _ => [NativeManager_ShowDialog (dialog next)]
             | [] => []
             end
          ++ block_calls e m (negb (Nat.eqb (length rest) 0))).
Proof.
  intros e m s rest Hl Hp Hc.
  rewrite Observe_LOAD_START_run, Hl, Hp, WillClose_run. cbv zeta.
  rewrite Hl, Hc. cbn [find_from]. rewrite Z.eqb_refl.
  cbn [length Nat.eqb erase andb negb]. destruct rest; reflexivity.
Qed.

Lemma X6_witness :
  run (Observe NOTIFICATION_LOAD_START)
      (mkEnv true (Some (mkWebContents true)) true)
      (mkManager true [DialogState_new 1; DialogState_new 2] false)
  = Ok (tt, mkManager true [DialogState_new 2] false,
        [NativeManager_CloseDialog 1; NativeManager_ShowDialog 2;
         RenderViewHost_SetIgnoreInputEvents true;
         Delegate_SetWebContentsBlocked true]).
Proof.
  apply (@X6_load_start_closes_unpinned_front_and_shows_next
           (mkEnv true (Some (mkWebContents true)) true)
           (mkManager true [DialogState_new 1; DialogState_new 2] false)
           (DialogState_new 1) [DialogState_new 2]); reflexivity.
Defined.

(** X7.  [WebContentsDestroyed] leaves the manager in the state its
    destructor demands: after it the destructor's DCHECK passes, whereas on
    a queue that still holds a dialog the DCHECK, where compiled in, is
    fatal. *)
Theorem X7_WebContentsDestroyed_satisfies_the_destructor :
  (forall e m fuel,
      (length (child_dialogs_ m) <= fuel)%nat ->
      run (bind (WebContentsDestroyed fuel) (fun _ => destroy)) e m
      = Ok (tt, mkManager (delegate_ m) [] false,
            close_all_calls e m (child_dialogs_ m)))
  /\ (forall e m,
         child_dialogs_ m <> [] -> dcheck_is_on e = true ->
         run destroy e m = Abort DcheckFailure).
Proof.
  split.
  - intros e m fuel Hlen. rewrite run_bind. unfold WebContentsDestroyed.
    rewrite CloseAllDialogs_run by exact Hlen. cbn beta iota.
    unfold destroy. run_method. cbn [child_dialogs_ length Nat.eqb negb].
    rewrite andb_false_r, app_nil_r. reflexivity.
  - intros e m Hne Hon. unfold destroy. run_method. rewrite Hon.
    destruct (child_dialogs_ m); [congruence | reflexivity].
Qed.

Lemma X7_witness :
  run (bind (WebContentsDestroyed 2) (fun _ => destroy))
      (mkEnv true (Some (mkWebContents true)) true)
      (mkManager true [DialogState_new 1; DialogState_new 2] false)
  = Ok (tt, mkManager true [] false,
        close_all_calls (mkEnv true (Some (mkWebContents true)) true)
          (mkManager true [DialogState_new 1; DialogState_new 2] false)
          [DialogState_new 1; DialogState_new 2])
  /\ run destroy (mkEnv true (Some (mkWebContents true)) true)
         (mkManager true [DialogState_new 1; DialogState_new 2] false)
     = Abort DcheckFailure.
Proof.
  split.
  - apply (proj1 X7_WebContentsDestroyed_satisfies_the_destructor
             (mkEnv true (Some (mkWebContents true)) true)
             (mkManager true [DialogState_new 1; DialogState_new 2] false) 2%nat).
    simpl. lia.
  - apply (proj2 X7_WebContentsDestroyed_satisfies_the_destructor).
    + discriminate.
    + reflexivity.
Defined.

(** ** The prevent flag and the order of the queue *)

Lemma find_from_set_prevent_at (l : list DialogState) i v d :
  find_from (set_prevent_at i v l) d = find_from l d.
Proof.
  revert i. induction l as [|x l IH]; intros [|i]; simpl; try reflexivity.
  now rewrite IH.
Qed.

Lemma set_prevent_at_twice (l : list DialogState) i v :
  set_prevent_at i v (set_prevent_at i v l) = set_prevent_at i v l.
Proof.
  revert i. induction l as [|x l IH]; intros [|i]; simpl; try reflexivity.
  now rewrite IH.
Qed.

Lemma set_prevent_at_length (l : list DialogState) i v :
  length (set_prevent_at i v l) = length l.
Proof.
  revert i. induction l as [|x l IH]; intros [|i]; simpl; try reflexivity.
  now rewrite IH.
Qed.

Lemma set_prevent_at_true_keeps_flags (l : list DialogState) i :
  Forall2 (fun a b => dialog a = dialog b
                      /\ (prevent_close_on_load_start a = true ->
                          prevent_close_on_load_start b = true))
          l (set_prevent_at i true l).
Proof.
  assert (Hrefl : forall k : list DialogState,
             Forall2 (fun a b => dialog a = dialog b
                                 /\ (prevent_close_on_load_start a = true ->
                                     prevent_close_on_load_start b = true)) k k).
  { induction k; constructor; auto. }
  revert i. induction l as [|x l IH]; intros [|i]; simpl; constructor; auto.
Qed.

Lemma set_prevent_at_found (l : list DialogState) d :
  In d (map dialog l) ->
  exists s, nth_error (set_prevent_at (find_from l d) true l) (find_from l d) = Some s
            /\ dialog s = d /\ prevent_close_on_load_start s = true.
Proof.
  induction l as [|x l IH]; simpl; intros Hin; [contradiction|].
  destruct (Z.eqb_spec (dialog x) d) as [Heq|Hne].
  - exists (mkDialogState (dialog x) true). simpl. auto.
  - destruct Hin as [Heq|Hin]; [contradiction|]. simpl. now apply IH.
Qed.

(** X8.  For a queued dialog, [SetPreventCloseOnLoadStart] returns without
    calling anybody; it sets the flag of the first entry for that dialog,
    keeps the handles and their order, clears no flag, and calling it again,
    with either argument, changes nothing more. *)
Theorem X8_SetPreventCloseOnLoadStart_sets_and_never_clears :
  forall e m d prevent prevent',
    In d (handles m) ->
    exists m',
      run (SetPreventCloseOnLoadStart d prevent) e m = Ok (tt, m', [])
      /\ handles m' = handles m
      /\ Forall2 (fun a b => dialog a = dialog b
                             /\ (prevent_close_on_load_start a = true ->
                                 prevent_close_on_load_start b = true))
                 (child_dialogs_ m) (child_dialogs_ m')
      /\ (exists s, nth_error (child_dialogs_ m') (find_from (child_dialogs_ m) d) = Some s
                    /\ dialog s = d /\ prevent_close_on_load_start s = true)
      /\ run (SetPreventCloseOnLoadStart d prevent') e m' = Ok (tt, m', []).
Proof.
  intros e m d prevent prevent' Hin. unfold handles in Hin.
  pose proof (find_from_present _ _ Hin) as Hlt.
  set (l := child_dialogs_ m) in *.
  exists (set_child_dialogs (set_prevent_at (find_from l d) true l) m).
  repeat split.
  - rewrite SetPreventCloseOnLoadStart_run. cbv zeta. fold l.
    destruct (Nat.eqb_spec (find_from l d) (length l)) as [Hx|_]; [lia|].
    reflexivity.
  - unfold handles. cbn [child_dialogs_ set_child_dialogs].
    apply set_prevent_at_handles.
  - cbn [child_dialogs_ set_child_dialogs]. apply set_prevent_at_true_keeps_flags.
  - cbn [child_dialogs_ set_child_dialogs]. now apply set_prevent_at_found.
  - rewrite SetPreventCloseOnLoadStart_run. cbv zeta.
    cbn [child_dialogs_ set_child_dialogs].
    rewrite find_from_set_prevent_at, set_prevent_at_length, set_prevent_at_twice.
    destruct (Nat.eqb_spec (find_from l d) (length l)) as [Hx|_]; [lia|].
    reflexivity.
Qed.

Lemma X8_witness :
  exists m',
    run (SetPreventCloseOnLoadStart 2 false)
        (mkEnv true (Some (mkWebContents true)) true)
        (mkManager true [DialogState_new 1; DialogState_new 2] false)
    = Ok (tt, m', [])
    /\ handles m' = handles (mkManager true [DialogState_new 1; DialogState_new 2] false)
    /\ Forall2 (fun a b => dialog a = dialog b
                           /\ (prevent_close_on_load_start a = true ->
                               prevent_close_on_load_start b = true))
               [DialogState_new 1; DialogState_new 2] (child_dialogs_ m')
    /\ (exists s, nth_error (child_dialogs_ m')
                    (find_from [DialogState_new 1; DialogState_new 2] 2) = Some s
                  /\ dialog s = 2 /\ prevent_close_on_load_start s = true)
    /\ run (SetPreventCloseOnLoadStart 2 true)
           (mkEnv true (Some (mkWebContents true)) true) m'
       = Ok (tt, m', []).
Proof.
  apply (@X8_SetPreventCloseOnLoadStart_sets_and_never_clears
           (mkEnv true (Some (mkWebContents true)) true)
           (mkManager true [DialogState_new 1; DialogState_new 2] false)
           2 false true).
  simpl. right. left. reflexivity.
Defined.

(** X9.  Only [ShowDialog] adds to the queue, and it adds at the back; every
    other operation leaves the handles a subsequence of what they were, so no
    operation reorders the queue. *)
Theorem X9_queue_order_is_kept :
  forall op e m m' t,
    run (exec op) e m = Ok (tt, m', t) ->
    match op with
    | op_ShowDialog d => handles m' = handles m ++ [d]
    | _ => subsequence (handles m') (handles m)
    end.
Proof.
  intros op e m m' t H. pose proof H as Hrun. apply exec_inversion in H.
  destruct op as [d| |d prevent|d|type|fuel| |fuel].
  - destruct H as [-> _]. unfold handles, push_back.
    cbn [child_dialogs_ set_child_dialogs]. now rewrite map_app.
  - destruct H as [-> _]. apply subsequence_refl.
  - destruct H as (_ & -> & _). unfold handles.
    cbn [child_dialogs_ set_child_dialogs]. rewrite set_prevent_at_handles.
    apply subsequence_refl.
  - eapply WillClose_subsequence; eauto.
  - destruct type as [visible| |].
    + destruct H as [-> _]. apply subsequence_refl.
    + destruct (child_dialogs_ m) as [|s rest] eqn:Hl.
      * destruct H as [-> _]. apply subsequence_refl.
      * destruct (prevent_close_on_load_start s).
        -- destruct H as [-> _]. apply subsequence_refl.
        -- destruct H as (t' & _ & H). eapply WillClose_subsequence; eauto.
    + destruct H as [-> _]. apply subsequence_refl.
  - destruct H as [-> _]. apply subsequence_nil_l.
  - destruct H as [-> _]. apply subsequence_refl.
  - destruct H as [-> _]. apply subsequence_nil_l.
Qed.

Lemma X9_witness :
  subsequence (handles (mkManager true [DialogState_new 1; DialogState_new 3] false))
              (handles (mkManager true [DialogState_new 1; DialogState_new 2;
                                        DialogState_new 3] false)).
Proof.
  apply (@X9_queue_order_is_kept (op_WillClose 2)
           (mkEnv true (Some (mkWebContents true)) true)
           (mkManager true [DialogState_new 1; DialogState_new 2; DialogState_new 3] false)
           (mkManager true [DialogState_new 1; DialogState_new 3] false)
           [RenderViewHost_SetIgnoreInputEvents true;
            Delegate_SetWebContentsBlocked true]).
  reflexivity.
Defined.

(** X10.  While a dialog is queued, [FocusTopmostDialog] and
    [DidGetIgnoredUIEvent] do the same thing: one focus request for the front
    dialog.  On an empty queue [DidGetIgnoredUIEvent] does nothing, whereas
    [FocusTopmostDialog] violates its DCHECK, fatal where compiled in. *)
Theorem X10_focus_requests_on_queued_and_empty :
  forall e m,
    match child_dialogs_ m with
    | s :: _ =>
        run FocusTopmostDialog e m = Ok (tt, m, [NativeManager_FocusDialog (dialog s)])
        /\ run DidGetIgnoredUIEvent e m = run FocusTopmostDialog e m
    | [] =>
        run DidGetIgnoredUIEvent e m = Ok (tt, m, [])
        /\ (dcheck_is_on e = true ->
            run FocusTopmostDialog e m = Abort DcheckFailure)
    end.
Proof.
  intros e m. rewrite FocusTopmostDialog_run, DidGetIgnoredUIEvent_run.
  destruct (child_dialogs_ m); split; try reflexivity.
  intros ->. reflexivity.
Qed.

Lemma X10_witness :
  run DidGetIgnoredUIEvent (mkEnv true None false) (initial false)
  = Ok (tt, initial false, [])
  /\ run FocusTopmostDialog (mkEnv true None false) (initial false)
     = Abort DcheckFailure.
Proof.
  split.
  - exact (proj1 (X10_focus_requests_on_queued_and_empty
                    (mkEnv true None false) (initial false))).
  - exact (proj2 (X10_focus_requests_on_queued_and_empty
                    (mkEnv true None false) (initial false)) eq_refl).
Defined.

(** ** The bulk-close guard *)

Lemma WillClose_keeps_guard e m d m' t :
  run (WillClose d) e m = Ok (tt, m', t) ->
  closing_all_dialogs_ m' = closing_all_dialogs_ m.
Proof.
  intros H. rewrite WillClose_run in H. cbv zeta in H.
  destruct (Nat.eqb (find_from (child_dialogs_ m) d) (length (child_dialogs_ m)));
    inversion H; subst; reflexivity.
Qed.

(** X20.  The bulk-close guard is never left set: in every state reached
    from a fresh manager by operations that return, [closing_all_dialogs_]
    is false, so a close notification arriving between operations always
    lets the next dialog be shown. *)
Theorem X20_guard_is_clear_between_operations :
  forall m, reachable m -> closing_all_dialogs_ m = false.
Proof.
  intros m Hr. induction Hr as [delegate|m op e m' t Hr IH Hrun];
    [reflexivity|].
  apply exec_inversion in Hrun.
  destruct op as [d| |d prevent|d|type|fuel| |fuel].
  - destruct Hrun as [-> _]. exact IH.
  - destruct Hrun as [-> _]. exact IH.
  - destruct Hrun as (_ & -> & _). exact IH.
  - apply WillClose_keeps_guard in Hrun. congruence.
  - destruct type as [visible| |].
    + destruct Hrun as [-> _]. exact IH.
    + destruct (child_dialogs_ m) as [|s rest].
      * destruct Hrun as [-> _]. exact IH.
      * destruct (prevent_close_on_load_start s).
        -- destruct Hrun as [-> _]. exact IH.
        -- destruct Hrun as (t' & _ & H). apply WillClose_keeps_guard in H.
           congruence.
    + destruct Hrun as [-> _]. exact IH.
  - destruct Hrun as [-> _]. reflexivity.
  - destruct Hrun as [-> _]. exact IH.
  - destruct Hrun as [-> _]. reflexivity.
Qed.

Lemma X20_witness :
  closing_all_dialogs_ (mkManager true [] false) = false.
Proof.
  apply X20_guard_is_clear_between_operations.
  apply reachable_step with (m := mkManager true [DialogState_new 1] false)
    (op := op_CloseAllDialogs 1)
    (e := mkEnv true (Some (mkWebContents true)) true)
    (t := [NativeManager_CloseDialog 1; RenderViewHost_SetIgnoreInputEvents false;
           Delegate_SetWebContentsBlocked false]).
  - apply reachable_step with (m := initial true) (op := op_ShowDialog 1)
      (e := mkEnv true (Some (mkWebContents true)) true)
      (t := [NativeManager_ManageDialog 1; NativeManager_ShowDialog 1;
             RenderViewHost_SetIgnoreInputEvents true;
             Delegate_SetWebContentsBlocked true]).
    + apply reachable_initial.
    + reflexivity.
  - reflexivity.
Defined.

End ManagerFacts.

(* ===================================================================== *)
(** * Properties of the language-code functions *)
(* ===================================================================== *)

Section StringFacts.

Import base.
Local Open Scope char_scope.

(** ** Characters *)

Ltac by_cases_on_char c :=
  destruct c as [[] [] [] [] [] [] [] []]; vm_compute; try reflexivity;
  try discriminate.

Lemma ToLowerASCII_idempotent c : ToLowerASCII (ToLowerASCII c) = ToLowerASCII c.
Proof. by_cases_on_char c. Qed.

Lemma ToUpperASCII_idempotent c : ToUpperASCII (ToUpperASCII c) = ToUpperASCII c.
Proof. by_cases_on_char c. Qed.

Lemma ToLowerASCII_whitespace c :
  IsAsciiWhitespace (ToLowerASCII c) = IsAsciiWhitespace c.
Proof. by_cases_on_char c. Qed.

Lemma ToUpperASCII_whitespace c :
  IsAsciiWhitespace (ToUpperASCII c) = IsAsciiWhitespace c.
Proof. by_cases_on_char c. Qed.

Lemma ToLowerASCII_dash c : Ascii.eqb (ToLowerASCII c) "-" = Ascii.eqb c "-".
Proof. by_cases_on_char c. Qed.

Lemma ToUpperASCII_dash c : Ascii.eqb (ToUpperASCII c) "-" = Ascii.eqb c "-".
Proof. by_cases_on_char c. Qed.

Lemma code_char_not_comma c : code_char c = true -> Ascii.eqb c "," = false.
Proof. by_cases_on_char c. Qed.

Lemma code_char_not_underscore c : code_char c = true -> Ascii.eqb c "_" = false.
Proof. by_cases_on_char c. Qed.

(** ** Searching for a character *)

Lemma find_char_None c s :
  Forall (fun x => Ascii.eqb x c = false) s -> find_char c s = None.
Proof.
  induction 1 as [|x s Hx _ IH]; simpl; [reflexivity|].
  now rewrite Hx, IH.
Qed.

Lemma find_char_None_inv c s :
  find_char c s = None -> Forall (fun x => Ascii.eqb x c = false) s.
Proof.
  induction s as [|x s IH]; simpl; intros H; [constructor|].
  destruct (Ascii.eqb x c) eqn:Hx; [discriminate|].
  constructor; [assumption|]. apply IH.
  destruct (find_char c s); [discriminate | reflexivity].
Qed.

(** The position found splits the string around the first occurrence. *)
Lemma find_char_Some c s i :
  find_char c s = Some i ->
  Forall (fun x => Ascii.eqb x c = false) (firstn i s)
  /\ length (firstn i s) = i
  /\ exists rest, skipn i s = c :: rest.
Proof.
  revert i. induction s as [|x s IH]; simpl; intros i H; [discriminate|].
  destruct (Ascii.eqb_spec x c) as [Heq|Hne].
  - inversion H; subst. simpl. repeat split; [constructor|]. now exists s.
  - destruct (find_char c s) as [j|] eqn:Hj; [|discriminate].
    simpl in H. inversion H; subst. destruct (IH j eq_refl) as (Hf & Hlen & rest & Hr).
    simpl. repeat split.
    + constructor; [|assumption]. now apply Ascii.eqb_neq.
    + now rewrite Hlen.
    + now exists rest.
Qed.

Lemma find_char_app c p q :
  Forall (fun x => Ascii.eqb x c = false) p ->
  find_char c (p ++ c :: q) = Some (length p).
Proof.
  induction 1 as [|x p Hx _ IH]; simpl.
  - now rewrite Ascii.eqb_refl.
  - now rewrite Hx, IH.
Qed.

(** ** Trimming *)

Lemma trim_leading_split s :
  exists w, s = w ++ trim_leading s /\ Forall (fun c => IsAsciiWhitespace c = true) w.
Proof.
  induction s as [|c s (w & Hs & Hw)]; simpl.
  - exists []. split; [reflexivity | constructor].
  - destruct (IsAsciiWhitespace c) eqn:Hc.
    + exists (c :: w). split; [simpl; now rewrite <- Hs | now constructor].
    + exists []. split; [reflexivity | constructor].
Qed.

Lemma trim_leading_starts_clean s :
  starts_clean (map IsAsciiWhitespace (trim_leading s)) = true.
Proof.
  induction s as [|c s IH]; simpl; [reflexivity|].
  destruct (IsAsciiWhitespace c) eqn:Hc; [assumption|].
  simpl. now rewrite Hc.
Qed.

Lemma trim_leading_fixed s :
  starts_clean (map IsAsciiWhitespace s) = true -> trim_leading s = s.
Proof.
  destruct s as [|c s]; simpl; [reflexivity|].
  destruct (IsAsciiWhitespace c); [discriminate | reflexivity].
Qed.

Lemma TrimWhitespaceASCII_trimmed s : trimmed (TrimWhitespaceASCII s) = true.
Proof.
  unfold trimmed, TrimWhitespaceASCII, trim_trailing.
  apply andb_true_intro. split.
  - set (t := trim_leading s).
    destruct (trim_leading_split (rev t)) as (w & Hsplit & Hw).
    set (u := trim_leading (rev t)) in *.
    assert (Ht : t = rev u ++ rev w).
    { rewrite <- rev_app_distr, <- Hsplit. now rewrite rev_involutive. }
    destruct (rev u) as [|a ru] eqn:Hru; [reflexivity|].
    pose proof (trim_leading_starts_clean s) as Hclean. fold t in Hclean.
    rewrite Ht in Hclean. simpl in Hclean. simpl.
    destruct (IsAsciiWhitespace a); [discriminate | reflexivity].
  - rewrite <- map_rev, rev_involutive. apply trim_leading_starts_clean.
Qed.

Lemma trimmed_fixed s : trimmed s = true -> TrimWhitespaceASCII s = s.
Proof.
  unfold trimmed, TrimWhitespaceASCII, trim_trailing. intros H.
  apply andb_prop in H. destruct H as [H1 H2].
  rewrite (trim_leading_fixed _ H1).
  rewrite <- map_rev in H2. rewrite (trim_leading_fixed _ H2).
  apply rev_involutive.
Qed.

(** Trimming only drops whitespace. *)
Lemma TrimWhitespaceASCII_chars (P : ascii -> Prop) s :
  Forall P (TrimWhitespaceASCII s) ->
  Forall (fun c => IsAsciiWhitespace c = true \/ P c) s.
Proof.
  unfold TrimWhitespaceASCII, trim_trailing. intros H.
  destruct (trim_leading_split s) as (w & Hs & Hw).
  destruct (trim_leading_split (rev (trim_leading s))) as (w' & Hs' & Hw').
  rewrite Hs. apply Forall_app. split.
  - eapply Forall_impl; [|exact Hw]. intros c Hc. now left.
  - rewrite <- (rev_involutive (trim_leading s)), Hs', rev_app_distr.
    apply Forall_app. split.
    + eapply Forall_impl; [|exact H]. intros c Hc. now right.
    + apply Forall_rev. eapply Forall_impl; [|exact Hw']. intros c Hc. now left.
Qed.

(** ** Splitting *)

Lemma pieces_not_nil sep s : pieces sep s <> [].
Proof.
  destruct s as [|c s]; simpl; [discriminate|].
  destruct (Ascii.eqb c sep); [discriminate|].
  destruct (pieces sep s); discriminate.
Qed.

(** Every character of a string is the separator or sits in a piece. *)
Lemma pieces_chars (P : ascii -> Prop) sep s :
  Forall (Forall P) (pieces sep s) ->
  Forall (fun c => Ascii.eqb c sep = true \/ P c) s.
Proof.
  induction s as [|c s IH]; simpl; intros H; [constructor|].
  destruct (Ascii.eqb c sep) eqn:Hc.
  - inversion H; subst. constructor; [now left | now apply IH].
  - destruct (pieces sep s) as [|p ps] eqn:Hp.
    + exfalso. eapply pieces_not_nil; eauto.
    + inversion H as [|? ? Hcp Hps]; subst. inversion Hcp; subst.
      constructor; [now right|]. apply IH. now constructor.
Qed.

Lemma SplitString_chars (P : ascii -> Prop) trim_whitespace s sep :
  SplitString trim_whitespace s sep <> [] ->
  Forall (Forall P) (SplitString trim_whitespace s sep) ->
  Forall (fun c => Ascii.eqb c sep = true \/ IsAsciiWhitespace c = true \/ P c) s.
Proof.
  unfold SplitString.
  set (f := fun p : str => if trim_whitespace then TrimWhitespaceASCII p else p).
  intros Hne H.
  assert (Hall : Forall (Forall P) (map f (pieces sep s))).
  { destruct (map f (pieces sep s)) as [|[|c p] [|q r]]; try assumption.
    now contradiction Hne. }
  clear H Hne. apply pieces_chars.
  rewrite Forall_map in Hall. eapply Forall_impl; [|exact Hall].
  intros p Hp. unfold f in Hp. destruct trim_whitespace.
  - now apply TrimWhitespaceASCII_chars.
  - eapply Forall_impl; [|exact Hp]. intros c Hc. now right.
Qed.

End StringFacts.

Section LanguageFacts.

Import base LanguageDetectionUtil.
Local Open Scope char_scope.

(** ** The steps of the typo correction *)

Lemma CorrectLanguageCodeTypo_steps code :
  CorrectLanguageCodeTypo code
  = lower_then_upper
      (underscore_to_dash (TrimWhitespaceASCII (keep_first_language code))).
Proof. reflexivity. Qed.

Lemma set_char_whitespace i s :
  (exists rest, skipn i s = "_" :: rest) ->
  map IsAsciiWhitespace (set_char i "-" s) = map IsAsciiWhitespace s.
Proof.
  revert i. induction s as [|c s IH]; intros i [rest Hr].
  - destruct i; discriminate.
  - destruct i as [|i]; simpl in *.
    + inversion Hr; subst. reflexivity.
    + f_equal. apply IH. now exists rest.
Qed.

Lemma underscore_to_dash_whitespace s :
  map IsAsciiWhitespace (underscore_to_dash s) = map IsAsciiWhitespace s.
Proof.
  unfold underscore_to_dash. destruct (find_char "_" s) as [i|] eqn:Hf;
    [|reflexivity].
  apply set_char_whitespace. now apply find_char_Some in Hf.
Qed.

Lemma lower_then_upper_whitespace s :
  map IsAsciiWhitespace (lower_then_upper s) = map IsAsciiWhitespace s.
Proof.
  assert (Hl : forall t, map IsAsciiWhitespace (StringToLowerASCII t)
                         = map IsAsciiWhitespace t).
  { intros t. unfold StringToLowerASCII. rewrite map_map. apply map_ext.
    apply ToLowerASCII_whitespace. }
  assert (Hu : forall t, map IsAsciiWhitespace (StringToUpperASCII t)
                         = map IsAsciiWhitespace t).
  { intros t. unfold StringToUpperASCII. rewrite map_map. apply map_ext.
    apply ToUpperASCII_whitespace. }
  unfold lower_then_upper. destruct (find_char "-" s) as [i|]; [|apply Hl].
  rewrite map_app, Hl, Hu, <- map_app. now rewrite firstn_skipn.
Qed.

(** The corrected code has no whitespace at its ends. *)
Lemma CorrectLanguageCodeTypo_trimmed code :
  trimmed (CorrectLanguageCodeTypo code) = true.
Proof.
  rewrite CorrectLanguageCodeTypo_steps. unfold trimmed.
  rewrite lower_then_upper_whitespace, underscore_to_dash_whitespace.
  apply TrimWhitespaceASCII_trimmed.
Qed.

Lemma StringToLowerASCII_no_dash s :
  Forall (fun x => Ascii.eqb x "-" = false) s ->
  Forall (fun x => Ascii.eqb x "-" = false) (StringToLowerASCII s).
Proof.
  unfold StringToLowerASCII. intros H. apply Forall_map.
  eapply Forall_impl; [|exact H]. intros c Hc. now rewrite ToLowerASCII_dash.
Qed.

(** Fixing the case twice is fixing it once. *)
Lemma lower_then_upper_idempotent s :
  lower_then_upper (lower_then_upper s) = lower_then_upper s.
Proof.
  assert (Hll : forall t, StringToLowerASCII (StringToLowerASCII t)
                          = StringToLowerASCII t).
  { intros t. unfold StringToLowerASCII. rewrite map_map. apply map_ext.
    apply ToLowerASCII_idempotent. }
  assert (Huu : forall t, StringToUpperASCII (StringToUpperASCII t)
                          = StringToUpperASCII t).
  { intros t. unfold StringToUpperASCII. rewrite map_map. apply map_ext.
    apply ToUpperASCII_idempotent. }
  unfold lower_then_upper at 2 3.
  destruct (find_char "-" s) as [i|] eqn:Hf.
  - destruct (find_char_Some _ _ Hf) as (Hno & Hlen & rest & Hr).
    rewrite Hr. unfold lower_then_upper.
    change (StringToUpperASCII ("-" :: rest)) with ("-" :: StringToUpperASCII rest).
    rewrite find_char_app by now apply StringToLowerASCII_no_dash.
    rewrite firstn_app, skipn_app, Nat.sub_diag, firstn_all, skipn_all.
    cbn [firstn skipn app]. rewrite app_nil_r, Hll.
    change ("-" :: StringToUpperASCII rest) with (StringToUpperASCII ("-" :: rest)).
    now rewrite Huu.
  - unfold lower_then_upper.
    rewrite find_char_None
      by (apply StringToLowerASCII_no_dash; now apply find_char_None_inv).
    apply Hll.
Qed.

(** A corrected code made of code characters is a fixed point of the
    correction. *)
Lemma CorrectLanguageCodeTypo_fixed code :
  Forall (fun c => code_char c = true) (CorrectLanguageCodeTypo code) ->
  CorrectLanguageCodeTypo (CorrectLanguageCodeTypo code)
  = CorrectLanguageCodeTypo code.
Proof.
  intros Hchars. set (c := CorrectLanguageCodeTypo code) in *.
  rewrite (CorrectLanguageCodeTypo_steps c).
  assert (H1 : keep_first_language c = c).
  { unfold keep_first_language. rewrite find_char_None; [reflexivity|].
    eapply Forall_impl; [|exact Hchars]. apply code_char_not_comma. }
  rewrite H1.
  rewrite (trimmed_fixed c) by apply CorrectLanguageCodeTypo_trimmed.
  assert (H3 : underscore_to_dash c = c).
  { unfold underscore_to_dash. rewrite find_char_None; [reflexivity|].
    eapply Forall_impl; [|exact Hchars]. apply code_char_not_underscore. }
  rewrite H3. unfold c at 1. rewrite CorrectLanguageCodeTypo_steps.
  apply lower_then_upper_idempotent.
Qed.

(** ** Validity *)

(** A valid code splits into one or two pieces, all alphabetic. *)
Lemma IsValidLanguageCode_pieces trim_whitespace code :
  IsValidLanguageCode trim_whitespace code = true ->
  SplitString trim_whitespace code "-" <> []
  /\ Forall (Forall (fun c => IsAsciiAlpha c = true))
            (SplitString trim_whitespace code "-").
Proof.
  unfold IsValidLanguageCode.
  destruct (SplitString trim_whitespace code "-") as [|a [|b [|x r]]];
    cbn [length nth]; try discriminate;
    repeat match goal with
           | |- (if ?c then false else _) = true -> _ =>
               destruct c eqn:?; [discriminate|]
           | |- (if ?c then true else _) = true -> _ =>
               let Hc := fresh "Hc" in
               destruct c eqn:Hc; try discriminate Hc
           end;
    intros _; (split; [discriminate|]);
    repeat match goal with
           | H : negb (forallb _ _) = false |- _ =>
               apply negb_false_iff in H;
               rewrite forallb_forall, <- Forall_forall in H
           end;
    repeat (apply Forall_cons; [assumption|]); apply Forall_nil.
Qed.

Lemma IsValidLanguageCode_chars trim_whitespace code :
  IsValidLanguageCode trim_whitespace code = true ->
  Forall (fun c => code_char c = true) code.
Proof.
  intros Hv. apply IsValidLanguageCode_pieces in Hv. destruct Hv as [Hne Hall].
  pose proof (@SplitString_chars _ _ _ _ Hne Hall) as H.
  eapply Forall_impl; [|exact H]. intros c [Hc|[Hc|Hc]]; unfold code_char;
    rewrite Hc; now rewrite ?orb_true_r.
Qed.

Lemma normalize_empty trim_whitespace : normalize trim_whitespace [] = [].
Proof. destruct trim_whitespace; reflexivity. Qed.

(** ** Prefixes and equality *)

Lemma str_eqb_refl a : str_eqb a a = true.
Proof. induction a as [|x a IH]; simpl; [reflexivity|]. now rewrite Ascii.eqb_refl. Qed.

Lemma str_eqb_eq a b : str_eqb a b = true <-> a = b.
Proof.
  split; [|intros ->; apply str_eqb_refl].
  revert b. induction a as [|x a IH]; intros [|y b] H; simpl in H;
    try discriminate; [reflexivity|].
  apply andb_prop in H. destruct H as [Hx Ha].
  apply Ascii.eqb_eq in Hx. subst. f_equal. now apply IH.
Qed.

Lemma starts_with_spec needle hay :
  starts_with needle hay = true <-> exists rest, hay = needle ++ rest.
Proof.
  revert hay. induction needle as [|x n IH]; intros hay; simpl.
  - split; [intros _; now exists hay | reflexivity].
  - destruct hay as [|y h].
    + split; [discriminate | intros [rest H]; discriminate].
    + rewrite andb_true_iff, Ascii.eqb_eq, IH. split.
      * intros [-> [rest ->]]. now exists rest.
      * intros [rest H]. inversion H; subst. split; [reflexivity | now exists rest].
Qed.

(** [hay.find(needle) == 0] says that [hay] starts with [needle]. *)
Lemma find_str_at_position_0 needle hay :
  at_position_0 (find_str needle hay) = starts_with needle hay.
Proof.
  destruct hay as [|y h]; simpl.
  - destruct (starts_with needle []); reflexivity.
  - destruct (starts_with needle (y :: h)); [reflexivity|].
    destruct (find_str needle h); reflexivity.
Qed.

(** ** The similar-language groups *)

Lemma GetSimilarLanguageGroupCode_unfold s :
  GetSimilarLanguageGroupCode s
  = if starts_with (lit "bs") s then 1%Z
    else if starts_with (lit "hr") s then 1%Z
    else if starts_with (lit "hi") s then 2%Z
    else if starts_with (lit "ne") s then 2%Z
    else 0%Z.
Proof.
  unfold GetSimilarLanguageGroupCode, kSimilarLanguageCodes, group_code_in.
  cbn [code group]. rewrite !find_str_at_position_0.
  destruct (starts_with (lit "bs") s), (starts_with (lit "hr") s),
    (starts_with (lit "hi") s), (starts_with (lit "ne") s); reflexivity.
Qed.

(** The group code of a string is the group of the table entry whose code
    the string starts with. *)
Lemma GetSimilarLanguageGroupCode_spec s k :
  k <> 0%Z ->
  GetSimilarLanguageGroupCode s = k
  <-> exists entry, In entry kSimilarLanguageCodes /\ group entry = k
                    /\ starts_with (code entry) s = true.
Proof.
  intros Hk. rewrite GetSimilarLanguageGroupCode_unfold. split.
  - destruct (starts_with (lit "bs") s) eqn:H1;
      [|destruct (starts_with (lit "hr") s) eqn:H2;
        [|destruct (starts_with (lit "hi") s) eqn:H3;
          [|destruct (starts_with (lit "ne") s) eqn:H4]]];
      intros <-.
    + exists (mkSimilar (lit "bs") 1). simpl. auto.
    + exists (mkSimilar (lit "hr") 1). simpl. auto.
    + exists (mkSimilar (lit "hi") 2). simpl. auto 6.
    + exists (mkSimilar (lit "ne") 2). simpl. auto 6.
    + congruence.
  - intros (entry & Hin & Hg & Hs).
    apply starts_with_spec in Hs. destruct Hs as [rest ->].
    simpl in Hin. destruct Hin as [<-|[<-|[<-|[<-|[]]]]];
      simpl in Hg; subst k; reflexivity.
Qed.

Lemma kSimilarLanguageCodes_groups_nonzero entry :
  In entry kSimilarLanguageCodes -> group entry <> 0%Z.
Proof.
  simpl. intros [<-|[<-|[<-|[<-|[]]]]]; discriminate.
Qed.

(** ** A declared "en" against the well-known codes *)

Lemma lower_e c : Ascii.eqb "e" (ToLowerASCII c) = true -> c = "e" \/ c = "E".
Proof.
  destruct c as [[] [] [] [] [] [] [] []]; vm_compute; intros H;
    try discriminate H; auto.
Qed.

Lemma lower_n c : Ascii.eqb "n" (ToLowerASCII c) = true -> c = "n" \/ c = "N".
Proof.
  destruct c as [[] [] [] [] [] [] [] []]; vm_compute; intros H;
    try discriminate H; auto.
Qed.

Lemma StartsWithASCII_en language :
  StartsWithASCII language (lit "en") false = true ->
  exists c1 c2 rest,
    language = c1 :: c2 :: rest
    /\ (c1 = "e" \/ c1 = "E") /\ (c2 = "n" \/ c2 = "N").
Proof.
  unfold StartsWithASCII. destruct language as [|c1 [|c2 rest]]; simpl;
    try discriminate.
  - rewrite andb_false_r. discriminate.
  - intros H. apply andb_prop in H. destruct H as [H1 H2].
    rewrite andb_true_r in H2.
    exists c1, c2, rest. split; [reflexivity|]. split.
    + now apply lower_e.
    + now apply lower_n.
Qed.

Lemma en_never_zh language cld_language :
  StartsWithASCII language (lit "en") false = true ->
  CanCLDComplementSubCode language cld_language = false.
Proof.
  intros H. destruct (StartsWithASCII_en _ H) as (c1 & c2 & rest & -> & [->| ->] & _);
    reflexivity.
Qed.

Lemma en_not_similar_to_well_known language cld_language :
  StartsWithASCII language (lit "en") false = true ->
  In cld_language kWellKnownCodesOnWrongConfiguration ->
  IsSameOrSimilarLanguages language cld_language = false.
Proof.
  intros H Hin.
  destruct (StartsWithASCII_en _ H) as (c1 & c2 & rest & -> & H1 & H2).
  unfold IsSameOrSimilarLanguages.
  rewrite find_str_at_position_0, !GetSimilarLanguageGroupCode_unfold.
  simpl in Hin.
  destruct H1 as [-> | ->], H2 as [-> | ->];
    repeat (destruct Hin as [<-|Hin]; [reflexivity|]); destruct Hin.
Qed.

Lemma well_known_is_not_unknown cld_language :
  In cld_language kWellKnownCodesOnWrongConfiguration ->
  str_eqb cld_language kUnknownLanguageCode = false.
Proof.
  simpl. intros Hin.
  repeat (destruct Hin as [<-|Hin]; [reflexivity|]); destruct Hin.
Qed.

Lemma well_known_found cld_language :
  In cld_language kWellKnownCodesOnWrongConfiguration ->
  existsb (str_eqb cld_language) kWellKnownCodesOnWrongConfiguration = true.
Proof.
  intros Hin. apply existsb_exists. exists cld_language.
  split; [assumption | apply str_eqb_refl].
Qed.

(** ** The claims about the language codes *)

(** C6.  Normalizing (typo correction, then validation, an invalid code
    becoming empty) a normalized code changes nothing, for every input and
    whether or not the splitting trims its pieces. *)
Theorem C6_normalize_idempotent :
  forall (trim_whitespace : bool) (x : str),
    normalize trim_whitespace (normalize trim_whitespace x)
    = normalize trim_whitespace x.
Proof.
  intros trim_whitespace x. unfold normalize at 2 3.
  destruct (IsValidLanguageCode trim_whitespace (CorrectLanguageCodeTypo x)) eqn:Hv;
    cbn [negb].
  - unfold normalize.
    rewrite CorrectLanguageCodeTypo_fixed
      by (eapply IsValidLanguageCode_chars; exact Hv).
    now rewrite Hv.
  - apply normalize_empty.
Qed.

(** C7.  The claim asks a primary tag of two or three letters in every
    non-empty normalized code.  The one-letter code "a" passes the
    validation: its normalized form is "a" itself, non-empty, with a primary
    tag of length one and no region. *)
Theorem C7_normalize_keeps_one_letter_code :
  forall trim_whitespace : bool,
    normalize trim_whitespace (lit "a") = lit "a"
    /\ IsValidLanguageCode trim_whitespace (lit "a") = true
    /\ primary_tag (normalize trim_whitespace (lit "a")) = lit "a"
    /\ length (primary_tag (normalize trim_whitespace (lit "a"))) = 1
    /\ region_tag (normalize trim_whitespace (lit "a")) = None.
Proof. intros [|]; repeat split. Qed.

(** C8.  With the classifier compiled in, when the classifier's verdict is
    reliable, rests on at least 100 bytes and is a language proper, the
    declared language starts with "en" whatever the case, and the
    classifier's code (after the synonym table) is one of the well-known
    codes, [DeterminePageLanguage] returns the classifier's code and reports
    TRUST_CLD. *)
Theorem C8_declared_en_and_well_known_classifier_code_trusts_classifier :
  forall (trim_whitespace : bool) (ToTranslateLanguageSynonym : str -> str)
         (DetectLanguageOfUnicodeText : list N -> Detection)
         (LanguageCodeWithDialects : Language -> str)
         (code html_lang : str) (contents : list N),
    let d := DetectLanguageOfUnicodeText contents in
    let detected := LanguageCodeWithDialects (cld_language_of d) in
    let classifier := ToTranslateLanguageSynonym detected in
    let declared :=
      declared_language trim_whitespace ToTranslateLanguageSynonym code html_lang in
    is_reliable_of d = true ->
    (100 <= text_bytes_of d)%Z ->
    is_no_result (cld_language_of d) = false ->
    declared <> [] ->
    StartsWithASCII declared (lit "en") false = true ->
    In classifier kWellKnownCodesOnWrongConfiguration ->
    DeterminePageLanguage trim_whitespace ToTranslateLanguageSynonym
      DetectLanguageOfUnicodeText LanguageCodeWithDialects true
      code html_lang contents
    = mkDetermined classifier LANGUAGE_VERIFICATION_TRUST_CLD
                   (Some detected) (Some true).
Proof.
  intros trim_whitespace syn detect dialects code html_lang contents
         d detected classifier declared Hrel Hbytes Hknown Hne Hen Hin.
  unfold DeterminePageLanguage, DetermineTextLanguage.
  fold d. rewrite Hrel, Hknown.
  apply Z.leb_le in Hbytes. rewrite Hbytes. cbn [andb negb].
  fold detected. fold classifier. fold declared.
  destruct declared as [|c0 rest] eqn:Hd; [congruence|].
  cbn [length Nat.eqb]. rewrite <- Hd in *.
  rewrite (@well_known_is_not_unknown classifier Hin).
  rewrite (@en_never_zh declared classifier Hen).
  rewrite (@en_not_similar_to_well_known declared classifier Hen Hin).
  unfold MaybeServerWrongConfiguration. rewrite Hen. cbn [negb].
  rewrite (@well_known_found classifier Hin). reflexivity.
Qed.

Lemma C8_witness :
  DeterminePageLanguage true (fun s => s)
    (fun _ => mkDetection (LANGUAGE 0) true 100) (fun _ => lit "es") true
    (lit "en") [] []
  = mkDetermined (lit "es") LANGUAGE_VERIFICATION_TRUST_CLD
                 (Some (lit "es")) (Some true).
Proof.
  apply (@C8_declared_en_and_well_known_classifier_code_trusts_classifier
           true (fun s => s) (fun _ => mkDetection (LANGUAGE 0) true 100)
           (fun _ => lit "es") (lit "en") [] []).
  - reflexivity.
  - simpl. lia.
  - reflexivity.
  - vm_compute. discriminate.
  - reflexivity.
  - simpl. left. reflexivity.
Defined.

(** C9, as stated, fails.  "hil" and "ne" are reported similar although the
    primary tag "hil" is no key of the table and the first two characters
    differ; "a" and "a" are reported not similar although their first
    characters match. *)
Lemma C9_counterexample_hil_ne :
  IsSameOrSimilarLanguages (lit "hil") (lit "ne") = true
  /\ SameOrSimilar_spec (lit "hil") (lit "ne") = false
  /\ IsSameOrSimilarLanguages (lit "a") (lit "a") = false
  /\ SameOrSimilar_spec (lit "a") (lit "a") = true.
Proof. repeat split. Qed.

(** C9, amended.  Two codes are reported same-or-similar exactly when the
    declared code has at least two characters and the classifier's code
    starts with its first two, or each of the two codes starts with the code
    of an entry of the table and the two entries have the same group;
    so "bs" and "hr" are, and "en" and "fr" are not. *)
Theorem C9_IsSameOrSimilarLanguages_by_prefixes :
  (forall declared classifier : str,
      IsSameOrSimilarLanguages declared classifier = true
      <-> (2 <= length declared
           /\ exists rest, classifier = firstn 2 declared ++ rest)
          \/ (exists e1 e2 rest1 rest2,
                 In e1 kSimilarLanguageCodes /\ In e2 kSimilarLanguageCodes
                 /\ group e1 = group e2
                 /\ declared = LanguageDetectionUtil.code e1 ++ rest1
                 /\ classifier = LanguageDetectionUtil.code e2 ++ rest2))
  /\ IsSameOrSimilarLanguages (lit "bs") (lit "hr") = true
  /\ IsSameOrSimilarLanguages (lit "en") (lit "fr") = false.
Proof.
  split; [|split; reflexivity].
  intros declared classifier. unfold IsSameOrSimilarLanguages.
  rewrite find_str_at_position_0.
  set (gp := GetSimilarLanguageGroupCode declared).
  set (gc := GetSimilarLanguageGroupCode classifier).
  split.
  - destruct ((2 <=? length declared)%nat
              && starts_with (firstn 2 declared) classifier) eqn:Hp.
    + intros _. left. apply andb_prop in Hp. destruct Hp as [Hlen Hs].
      split; [now apply Nat.leb_le | now apply starts_with_spec].
    + intros H. right. apply andb_prop in H. destruct H as [Hnz Heq].
      apply negb_true_iff, Z.eqb_neq in Hnz. apply Z.eqb_eq in Heq.
      destruct (proj1 (GetSimilarLanguageGroupCode_spec declared Hnz) eq_refl)
        as (e1 & Hin1 & Hg1 & Hs1).
      destruct (proj1 (GetSimilarLanguageGroupCode_spec classifier Hnz)
                      (eq_sym Heq))
        as (e2 & Hin2 & Hg2 & Hs2).
      apply starts_with_spec in Hs1, Hs2.
      destruct Hs1 as [rest1 Hr1], Hs2 as [rest2 Hr2].
      exists e1, e2, rest1, rest2. repeat split; try assumption. congruence.
  - intros [[Hlen Hs] | (e1 & e2 & rest1 & rest2 & Hin1 & Hin2 & Hg & Hd & Hc)].
    + apply Nat.leb_le in Hlen. apply starts_with_spec in Hs.
      now rewrite Hlen, Hs.
    + destruct ((2 <=? length declared)%nat
                && starts_with (firstn 2 declared) classifier); [reflexivity|].
      pose proof (@kSimilarLanguageCodes_groups_nonzero e1 Hin1) as Hnz.
      assert (Hgp : gp = group e1).
      { apply GetSimilarLanguageGroupCode_spec; [assumption|].
        exists e1. repeat split; [assumption|].
        apply starts_with_spec. now exists rest1. }
      assert (Hgc : gc = group e1).
      { apply GetSimilarLanguageGroupCode_spec; [assumption|].
        exists e2. repeat split; [assumption| now symmetry |].
        apply starts_with_spec. now exists rest2. }
      rewrite Hgp, Hgc, Z.eqb_refl, andb_true_r.
      now apply negb_true_iff, Z.eqb_neq.
Qed.

Lemma C9_witness :
  IsSameOrSimilarLanguages (lit "hi-IN") (lit "ne") = true.
Proof.
  apply (proj1 C9_IsSameOrSimilarLanguages_by_prefixes (lit "hi-IN") (lit "ne")).
  right.
  exists (mkSimilar (lit "hi") 2), (mkSimilar (lit "ne") 2), (lit "-IN"), [].
  simpl. repeat split; auto 6.
Defined.

(** ** Same-or-similar as a relation *)

Lemma starts_with_firstn needle hay :
  starts_with needle hay = starts_with needle (firstn (length needle) hay).
Proof.
  revert hay. induction needle as [|x n IH]; intros [|y h]; simpl;
    try reflexivity.
  now rewrite <- IH.
Qed.

Lemma GetSimilarLanguageGroupCode_firstn s :
  GetSimilarLanguageGroupCode s = GetSimilarLanguageGroupCode (firstn 2 s).
Proof.
  rewrite !GetSimilarLanguageGroupCode_unfold.
  rewrite (starts_with_firstn (lit "bs") s), (starts_with_firstn (lit "hr") s),
    (starts_with_firstn (lit "hi") s), (starts_with_firstn (lit "ne") s).
  reflexivity.
Qed.

Lemma GetSimilarLanguageGroupCode_nonzero_length s :
  GetSimilarLanguageGroupCode s <> 0%Z -> 2 <= length s.
Proof.
  intros Hnz.
  destruct (proj1 (GetSimilarLanguageGroupCode_spec s Hnz) eq_refl)
    as (entry & Hin & _ & Hs).
  apply starts_with_spec in Hs. destruct Hs as [rest ->].
  rewrite length_app. simpl in Hin.
  destruct Hin as [<-|[<-|[<-|[<-|[]]]]]; simpl; lia.
Qed.

Lemma starts_with_first_two p c :
  2 <= length p ->
  starts_with (firstn 2 p) c = true
  <-> 2 <= length c /\ firstn 2 c = firstn 2 p.
Proof.
  intros Hp. rewrite starts_with_spec.
  assert (Hlen : length (firstn 2 p) = 2) by (rewrite length_firstn; lia).
  split.
  - intros [rest ->]. split.
    + rewrite length_app. lia.
    + rewrite firstn_app, Hlen. cbn [Nat.sub firstn]. rewrite app_nil_r.
      destruct p as [|a [|b l]]; reflexivity.
  - intros [_ Heq]. exists (skipn 2 c). rewrite <- Heq. symmetry.
    apply firstn_skipn.
Qed.

(** The predicate in terms of the first two characters alone. *)
Lemma IsSameOrSimilarLanguages_first_two p c :
  IsSameOrSimilarLanguages p c = true
  <-> 2 <= length p /\ 2 <= length c
      /\ (firstn 2 p = firstn 2 c
          \/ (GetSimilarLanguageGroupCode (firstn 2 p) <> 0%Z
              /\ GetSimilarLanguageGroupCode (firstn 2 p)
                 = GetSimilarLanguageGroupCode (firstn 2 c))).
Proof.
  unfold IsSameOrSimilarLanguages. rewrite find_str_at_position_0.
  rewrite <- !GetSimilarLanguageGroupCode_firstn.
  destruct (Nat.leb_spec 2 (length p)) as [Hp|Hp]; cbn [andb].
  - destruct (starts_with (firstn 2 p) c) eqn:Hs.
    + apply starts_with_first_two in Hs; [|exact Hp]. destruct Hs as [Hc Heq].
      split; [intros _|reflexivity]. auto.
    + rewrite andb_true_iff, negb_true_iff, Z.eqb_neq, Z.eqb_eq. split.
      * intros [Hnz Heq]. split; [exact Hp|]. split.
        -- apply GetSimilarLanguageGroupCode_nonzero_length. congruence.
        -- right. now split.
      * intros (_ & Hc & [Heq|[Hnz Heq]]); [|now split].
        exfalso. assert (Ht : starts_with (firstn 2 p) c = true)
          by (apply starts_with_first_two; auto).
        congruence.
  - rewrite andb_true_iff, negb_true_iff, Z.eqb_neq, Z.eqb_eq. split.
    + intros [Hnz _]. apply GetSimilarLanguageGroupCode_nonzero_length in Hnz. lia.
    + intros (Hp' & _). lia.
Qed.

(** X11.  Being same-or-similar is symmetric and transitive, and a code is
    same-or-similar to itself exactly when it has at least two characters. *)
Theorem X11_IsSameOrSimilarLanguages_partial_equivalence :
  (forall p c, IsSameOrSimilarLanguages p c = IsSameOrSimilarLanguages c p)
  /\ (forall p c d,
         IsSameOrSimilarLanguages p c = true ->
         IsSameOrSimilarLanguages c d = true ->
         IsSameOrSimilarLanguages p d = true)
  /\ (forall p, IsSameOrSimilarLanguages p p = true <-> 2 <= length p).
Proof.
  split; [|split].
  - intros p c. apply eq_true_iff_eq.
    rewrite !IsSameOrSimilarLanguages_first_two. split.
    + intros (Hp & Hc & [Heq|[Hnz Heq]]); repeat split; auto.
      right. split; congruence.
    + intros (Hp & Hc & [Heq|[Hnz Heq]]); repeat split; auto.
      right. split; congruence.
  - intros p c d. rewrite !IsSameOrSimilarLanguages_first_two.
    intros (Hp & Hc & H1) (_ & Hd & H2). repeat split; auto.
    destruct H1 as [H1|[Hn1 H1]], H2 as [H2|[Hn2 H2]].
    + left. congruence.
    + right. rewrite H1. now split.
    + right. rewrite <- H2. now split.
    + right. split; congruence.
  - intros p. rewrite IsSameOrSimilarLanguages_first_two. split.
    + now intros (Hp & _).
    + intros Hp. repeat split; auto.
Qed.

Lemma X11_witness :
  IsSameOrSimilarLanguages (lit "bs-BA") (lit "hr-HR") = true.
Proof.
  apply (proj1 (proj2 X11_IsSameOrSimilarLanguages_partial_equivalence)
               (lit "bs-BA") (lit "bs") (lit "hr-HR")); reflexivity.
Defined.

(** ** What the typo correction returns *)

Lemma ToLowerASCII_comma c : Ascii.eqb (ToLowerASCII c) "," = Ascii.eqb c ",".
Proof. destruct c as [[] [] [] [] [] [] [] []]; reflexivity. Qed.

Lemma ToUpperASCII_comma c : Ascii.eqb (ToUpperASCII c) "," = Ascii.eqb c ",".
Proof. destruct c as [[] [] [] [] [] [] [] []]; reflexivity. Qed.

Lemma ToLowerASCII_not_upper c : IsAsciiUpperLetter (ToLowerASCII c) = false.
Proof. destruct c as [[] [] [] [] [] [] [] []]; reflexivity. Qed.

Lemma ToUpperASCII_not_lower c : IsAsciiLowerLetter (ToUpperASCII c) = false.
Proof. destruct c as [[] [] [] [] [] [] [] []]; reflexivity. Qed.

Lemma trim_leading_length s : length (trim_leading s) <= length s.
Proof.
  induction s as [|c s IH]; simpl; [lia|].
  destruct (IsAsciiWhitespace c); simpl; lia.
Qed.

Lemma TrimWhitespaceASCII_length s : length (TrimWhitespaceASCII s) <= length s.
Proof.
  unfold TrimWhitespaceASCII, trim_trailing. rewrite length_rev.
  pose proof (trim_leading_length (rev (trim_leading s))) as H1.
  rewrite length_rev in H1. pose proof (trim_leading_length s). lia.
Qed.

Lemma trim_leading_Forall (P : ascii -> Prop) s :
  Forall P s -> Forall P (trim_leading s).
Proof.
  induction 1 as [|c s Hc Hs IH]; simpl; [constructor|].
  destruct (IsAsciiWhitespace c); [assumption | now constructor].
Qed.

Lemma TrimWhitespaceASCII_Forall (P : ascii -> Prop) s :
  Forall P s -> Forall P (TrimWhitespaceASCII s).
Proof.
  intros H. unfold TrimWhitespaceASCII, trim_trailing.
  apply Forall_rev, trim_leading_Forall, Forall_rev, trim_leading_Forall, H.
Qed.

Lemma set_char_length i c s : length (set_char i c s) = length s.
Proof.
  revert i. induction s as [|x s IH]; intros [|i]; simpl; auto.
Qed.

Lemma set_char_Forall (P : ascii -> Prop) i c s :
  P c -> Forall P s -> Forall P (set_char i c s).
Proof.
  intros Hc H. revert i. induction H as [|x s Hx Hs IH]; intros [|i]; simpl;
    constructor; auto.
Qed.

Lemma lower_then_upper_length s : length (lower_then_upper s) = length s.
Proof.
  unfold lower_then_upper, StringToLowerASCII, StringToUpperASCII.
  destruct (find_char "-" s) as [i|].
  - rewrite length_app, !length_map, <- length_app. now rewrite firstn_skipn.
  - apply length_map.
Qed.

Lemma lower_then_upper_no_comma s :
  Forall (fun x => Ascii.eqb x "," = false) s ->
  Forall (fun x => Ascii.eqb x "," = false) (lower_then_upper s).
Proof.
  intros H.
  assert (Hl : forall t, Forall (fun x => Ascii.eqb x "," = false) t ->
                         Forall (fun x => Ascii.eqb x "," = false) (StringToLowerASCII t)).
  { intros t Ht. apply Forall_map. eapply Forall_impl; [|exact Ht].
    intros c Hc. now rewrite ToLowerASCII_comma. }
  assert (Hu : forall t, Forall (fun x => Ascii.eqb x "," = false) t ->
                         Forall (fun x => Ascii.eqb x "," = false) (StringToUpperASCII t)).
  { intros t Ht. apply Forall_map. eapply Forall_impl; [|exact Ht].
    intros c Hc. now rewrite ToUpperASCII_comma. }
  unfold lower_then_upper. destruct (find_char "-" s) as [i|]; [|now apply Hl].
  rewrite <- (firstn_skipn i s) in H. apply Forall_app in H. destruct H as [H1 H2].
  apply Forall_app. split; [now apply Hl | now apply Hu].
Qed.

Lemma keep_first_language_no_comma s :
  Forall (fun x => Ascii.eqb x "," = false) (keep_first_language s).
Proof.
  unfold keep_first_language. destruct (find_char "," s) as [i|] eqn:Hf.
  - now apply find_char_Some in Hf.
  - now apply find_char_None_inv.
Qed.

Lemma keep_first_language_length s : length (keep_first_language s) <= length s.
Proof.
  unfold keep_first_language. destruct (find_char "," s) as [i|]; [|lia].
  rewrite length_firstn. lia.
Qed.

(** The tags of a case-fixed code are the tags of the code, lowered before
    the hyphen and raised after it. *)
Lemma lower_then_upper_tags s :
  primary_tag (lower_then_upper s) = StringToLowerASCII (primary_tag s)
  /\ region_tag (lower_then_upper s)
     = option_map StringToUpperASCII (region_tag s).
Proof.
  unfold primary_tag, region_tag, lower_then_upper.
  destruct (find_char "-" s) as [i|] eqn:Hf.
  - destruct (find_char_Some _ _ Hf) as (Hno & Hlen & rest & Hr).
    assert (Hrest : skipn (S i) s = rest).
    { change (S i) with (1 + i). rewrite <- skipn_skipn, Hr. reflexivity. }
    rewrite Hr, Hrest.
    change (StringToUpperASCII ("-" :: rest)) with ("-" :: StringToUpperASCII rest)%char.
    rewrite find_char_app by now apply StringToLowerASCII_no_dash.
    assert (Hll : length (StringToLowerASCII (firstn i s)) = i).
    { unfold StringToLowerASCII. now rewrite length_map. }
    rewrite Hll. split.
    + rewrite firstn_app, Hll, Nat.sub_diag. cbn [firstn]. rewrite app_nil_r.
      rewrite <- Hll at 1. apply firstn_all.
    + cbn [option_map]. f_equal.
      change (S i) with (1 + i). rewrite <- skipn_skipn.
      rewrite skipn_app, Hll, Nat.sub_diag. cbn [skipn].
      rewrite <- Hll at 1. rewrite skipn_all. reflexivity.
  - rewrite find_char_None
      by (apply StringToLowerASCII_no_dash; now apply find_char_None_inv).
    split; reflexivity.
Qed.

(** X12.  Whatever follows the first comma of a code is ignored by the
    correction. *)
Theorem X12_CorrectLanguageCodeTypo_ignores_after_first_comma :
  forall first others : str,
    find_char "," first = None ->
    CorrectLanguageCodeTypo (first ++ "," :: others)%char
    = CorrectLanguageCodeTypo first.
Proof.
  intros first others Hno. rewrite !CorrectLanguageCodeTypo_steps.
  f_equal. f_equal. f_equal. unfold keep_first_language. rewrite Hno.
  apply find_char_None_inv in Hno. rewrite (@find_char_app "," first others Hno).
  rewrite firstn_app, Nat.sub_diag, firstn_all. cbn [firstn]. apply app_nil_r.
Qed.

Lemma X12_witness :
  CorrectLanguageCodeTypo (lit "fr" ++ "," :: lit "en;q=0.5")%char
  = CorrectLanguageCodeTypo (lit "fr").
Proof.
  apply (@X12_CorrectLanguageCodeTypo_ignores_after_first_comma
           (lit "fr") (lit "en;q=0.5")).
  reflexivity.
Defined.

(** X13.  The corrected code is never longer than the input, holds no comma,
    has no whitespace at either end, has no capital letter before its first
    hyphen and no small letter after it. *)
Theorem X13_CorrectLanguageCodeTypo_output_shape :
  forall code : str,
    length (CorrectLanguageCodeTypo code) <= length code
    /\ find_char "," (CorrectLanguageCodeTypo code) = None
    /\ trimmed (CorrectLanguageCodeTypo code) = true
    /\ Forall (fun c => IsAsciiUpperLetter c = false)
              (primary_tag (CorrectLanguageCodeTypo code))
    /\ match region_tag (CorrectLanguageCodeTypo code) with
       | Some region => Forall (fun c => IsAsciiLowerLetter c = false) region
       | None => True
       end.
Proof.
  intros code. split; [|split; [|split; [|split]]].
  - rewrite CorrectLanguageCodeTypo_steps, lower_then_upper_length.
    unfold underscore_to_dash.
    pose proof (TrimWhitespaceASCII_length (keep_first_language code)).
    pose proof (keep_first_language_length code).
    destruct (find_char "_" (TrimWhitespaceASCII (keep_first_language code)));
      rewrite ?set_char_length; lia.
  - apply find_char_None. rewrite CorrectLanguageCodeTypo_steps.
    apply lower_then_upper_no_comma. unfold underscore_to_dash.
    pose proof (TrimWhitespaceASCII_Forall (keep_first_language_no_comma code)) as H.
    destruct (find_char "_" (TrimWhitespaceASCII (keep_first_language code)));
      [|exact H].
    now apply set_char_Forall.
  - apply CorrectLanguageCodeTypo_trimmed.
  - rewrite CorrectLanguageCodeTypo_steps.
    rewrite (proj1 (lower_then_upper_tags _)). apply Forall_map, Forall_forall.
    intros c _. apply ToLowerASCII_not_upper.
  - rewrite CorrectLanguageCodeTypo_steps.
    rewrite (proj2 (lower_then_upper_tags _)).
    destruct (region_tag _); cbn [option_map]; [|exact I].
    apply Forall_map, Forall_forall. intros c _. apply ToUpperASCII_not_lower.
Qed.

(** ** The shape of a valid code *)

Lemma pieces_find sep s :
  pieces sep s
  = match find_char sep s with
    | None => [s]
    | Some i => firstn i s :: pieces sep (skipn (S i) s)
    end.
Proof.
  induction s as [|c s IH]; [reflexivity|].
  cbn [pieces find_char]. destruct (Ascii.eqb c sep); [reflexivity|].
  rewrite IH. destruct (find_char sep s) as [i|]; reflexivity.
Qed.

Lemma pieces_single sep s b : pieces sep s = [b] -> s = b.
Proof.
  rewrite pieces_find. destruct (find_char sep s) as [i|].
  - intros H. inversion H as [[Ha Hb]]. exfalso. eapply pieces_not_nil; eauto.
  - now intros [= ->].
Qed.

Lemma pieces_length sep s :
  length (pieces sep s) = S (length (filter (fun c => Ascii.eqb c sep) s)).
Proof.
  induction s as [|c s IH]; [reflexivity|].
  cbn [pieces filter]. destruct (Ascii.eqb c sep).
  - cbn [length]. now rewrite IH.
  - rewrite <- IH. destruct (pieces sep s) as [|p ps] eqn:Hp; [|reflexivity].
    exfalso. eapply pieces_not_nil; eauto.
Qed.

Lemma SplitString_piece trim_whitespace s sep :
  SplitString trim_whitespace s sep
  = match map (piece trim_whitespace) (pieces sep s) with
    | [[]] => []
    | _ => map (piece trim_whitespace) (pieces sep s)
    end.
Proof. reflexivity. Qed.

(** A valid code is a main part of one to three letters, alone or followed
    by a hyphen and a part of two letters, each part taken as the splitting
    delivers it. *)
Lemma IsValidLanguageCode_shape trim_whitespace code :
  IsValidLanguageCode trim_whitespace code = true ->
  1 <= length (piece trim_whitespace (primary_tag code)) <= 3
  /\ Forall (fun c => IsAsciiAlpha c = true) (piece trim_whitespace (primary_tag code))
  /\ match region_tag code with
     | None => True
     | Some region =>
         length (piece trim_whitespace region) = 2
         /\ Forall (fun c => IsAsciiAlpha c = true) (piece trim_whitespace region)
     end.
Proof.
  unfold IsValidLanguageCode. rewrite SplitString_piece, pieces_find.
  unfold primary_tag, region_tag.
  destruct (find_char "-" code) as [i|].
  - destruct (pieces "-" (skipn (S i) code)) as [|b [|b2 more]] eqn:Hp.
    + exfalso. eapply pieces_not_nil; eauto.
    + apply pieces_single in Hp. subst b. cbn [map].
      set (a := piece trim_whitespace (firstn i code)).
      set (b := piece trim_whitespace (skipn (S i) code)).
      assert (Hr : match [a; b] with [[]] => [] | _ => [a; b] end = [a; b])
        by (destruct a; reflexivity).
      rewrite Hr. cbn [length nth].
      change ((2 <? 1)%nat || (2 <? 2)%nat) with false.
      change ((2 =? 1)%nat) with false.
      cbn iota.
      destruct (Nat.ltb_spec (length a) 1) as [H1|H1]; [discriminate|].
      destruct (Nat.ltb_spec 3 (length a)) as [H3|H3]; [discriminate|].
      cbn [orb]. destruct (forallb IsAsciiAlpha a) eqn:Ha; [|discriminate].
      cbn [negb]. destruct (Nat.eqb_spec (length b) 2) as [H2|H2]; [|discriminate].
      cbn [negb]. destruct (forallb IsAsciiAlpha b) eqn:Hb; [|discriminate].
      intros _. rewrite forallb_forall, <- Forall_forall in Ha, Hb.
      repeat split; auto; lia.
    + cbn [map]. destruct (piece trim_whitespace (firstn i code));
        cbn [length]; discriminate.
  - cbn [map]. set (a := piece trim_whitespace code).
    destruct a as [|c0 a'] eqn:Ha0; [discriminate|].
    cbn [length nth].
    change ((1 <? 1)%nat || (2 <? 1)%nat) with false.
    change ((1 =? 1)%nat) with true.
    cbn iota.
    destruct (Nat.ltb_spec (S (length a')) 1) as [H1|H1]; [discriminate|].
    destruct (Nat.ltb_spec 3 (S (length a'))) as [H3|H3]; [discriminate|].
    cbn [orb]. destruct (forallb IsAsciiAlpha (c0 :: a')) eqn:Ha; [|discriminate].
    intros _. rewrite forallb_forall, <- Forall_forall in Ha.
    repeat split; auto; lia.
Qed.

(** X14.  A code is invalid as soon as it holds a character that is neither
    a letter, a hyphen nor whitespace, or more than one hyphen. *)
Theorem X14_IsValidLanguageCode_rejects_stray_characters_and_extra_hyphens :
  forall (trim_whitespace : bool) (code : str),
    (exists c, In c code /\ code_char c = false) \/ 2 <= hyphens code ->
    IsValidLanguageCode trim_whitespace code = false.
Proof.
  intros trim_whitespace code [(c & Hin & Hc) | Hh].
  - destruct (IsValidLanguageCode trim_whitespace code) eqn:Hv; [|reflexivity].
    apply IsValidLanguageCode_chars in Hv. rewrite Forall_forall in Hv.
    specialize (Hv c Hin). congruence.
  - unfold IsValidLanguageCode. rewrite SplitString_piece.
    pose proof (pieces_length "-" code) as Hlen. fold (hyphens code) in Hlen.
    destruct (pieces "-" code) as [|a [|b [|b2 more]]]; cbn [length] in Hlen;
      try lia.
    cbn [map]. destruct (piece trim_whitespace a); reflexivity.
Qed.

Lemma X14_witness :
  IsValidLanguageCode true (lit "zh-Hant-TW") = false.
Proof.
  apply X14_IsValidLanguageCode_rejects_stray_characters_and_extra_hyphens.
  right. vm_compute. lia.
Defined.

Lemma alpha_not_upper_is_lower c :
  IsAsciiAlpha c = true -> IsAsciiUpperLetter c = false ->
  IsAsciiLowerLetter c = true.
Proof.
  unfold IsAsciiAlpha, IsAsciiUpperLetter, IsAsciiLowerLetter.
  intros H Hu. rewrite Hu in H. exact H.
Qed.

Lemma alpha_not_lower_is_upper c :
  IsAsciiAlpha c = true -> IsAsciiLowerLetter c = false ->
  IsAsciiUpperLetter c = true.
Proof.
  unfold IsAsciiAlpha, IsAsciiUpperLetter, IsAsciiLowerLetter.
  intros H Hl. rewrite Hl, orb_false_r in H. exact H.
Qed.

(** The case of the corrected code, part by part. *)
Lemma corrected_code_case code :
  Forall (fun c => IsAsciiUpperLetter c = false)
         (primary_tag (CorrectLanguageCodeTypo code))
  /\ match region_tag (CorrectLanguageCodeTypo code) with
     | Some region => Forall (fun c => IsAsciiLowerLetter c = false) region
     | None => True
     end.
Proof.
  rewrite CorrectLanguageCodeTypo_steps. split.
  - rewrite (proj1 (lower_then_upper_tags _)). apply Forall_map, Forall_forall.
    intros c _. apply ToLowerASCII_not_upper.
  - rewrite (proj2 (lower_then_upper_tags _)).
    destruct (region_tag _); cbn [option_map]; [|exact I].
    apply Forall_map, Forall_forall. intros c _. apply ToUpperASCII_not_lower.
Qed.

Lemma piece_Forall (P : ascii -> Prop) trim_whitespace s :
  Forall P s -> Forall P (piece trim_whitespace s).
Proof.
  destruct trim_whitespace; [apply TrimWhitespaceASCII_Forall | auto].
Qed.

(** X15.  A normalized code that is not empty has a main part of one to
    three small letters and, when it has a hyphen, a second part of exactly
    two capital letters (each part taken as the splitting delivers it). *)
Theorem X15_normalized_code_shape :
  forall (trim_whitespace : bool) (x : str),
    normalize trim_whitespace x <> [] ->
    1 <= length (piece trim_whitespace (primary_tag (normalize trim_whitespace x))) <= 3
    /\ Forall (fun c => IsAsciiLowerLetter c = true)
              (piece trim_whitespace (primary_tag (normalize trim_whitespace x)))
    /\ match region_tag (normalize trim_whitespace x) with
       | None => True
       | Some region =>
           length (piece trim_whitespace region) = 2
           /\ Forall (fun c => IsAsciiUpperLetter c = true)
                     (piece trim_whitespace region)
       end.
Proof.
  intros trim_whitespace x Hne. unfold normalize in *.
  destruct (IsValidLanguageCode trim_whitespace (CorrectLanguageCodeTypo x)) eqn:Hv;
    cbn [negb] in *; [|congruence].
  destruct (IsValidLanguageCode_shape _ _ Hv) as (Hlen & Hmain & Hregion).
  destruct (corrected_code_case x) as (Hup & Hlow).
  split; [exact Hlen|]. split.
  - pose proof (piece_Forall trim_whitespace Hup) as Hup'.
    rewrite Forall_forall in *. intros c Hc.
    apply alpha_not_upper_is_lower; auto.
  - destruct (region_tag (CorrectLanguageCodeTypo x)) as [region|]; [|exact I].
    destruct Hregion as [Hl2 Halpha]. split; [exact Hl2|].
    pose proof (piece_Forall trim_whitespace Hlow) as Hlow'.
    rewrite Forall_forall in *. intros c Hc.
    apply alpha_not_lower_is_upper; auto.
Qed.

Lemma X15_witness :
  1 <= length (piece true (primary_tag (normalize true (lit " EN_us ")))) <= 3
  /\ Forall (fun c => IsAsciiLowerLetter c = true)
            (piece true (primary_tag (normalize true (lit " EN_us "))))
  /\ match region_tag (normalize true (lit " EN_us ")) with
     | None => True
     | Some region =>
         length (piece true region) = 2
         /\ Forall (fun c => IsAsciiUpperLetter c = true) (piece true region)
     end.
Proof.
  apply X15_normalized_code_shape. vm_compute. discriminate.
Defined.

(** ** The declared language and the arbitration *)

Lemma ApplyLanguageCodeCorrection_empty trim_whitespace syn :
  ApplyLanguageCodeCorrection trim_whitespace syn [] = [].
Proof. destruct trim_whitespace; reflexivity. Qed.

(** The declared language is the corrected html lang when that is not
    empty, the corrected header otherwise. *)
Lemma declared_language_cases trim_whitespace syn code html_lang :
  declared_language trim_whitespace syn code html_lang
  = match ApplyLanguageCodeCorrection trim_whitespace syn html_lang with
    | [] => ApplyLanguageCodeCorrection trim_whitespace syn code
    | _ :: _ => ApplyLanguageCodeCorrection trim_whitespace syn html_lang
    end.
Proof.
  unfold declared_language.
  destruct html_lang as [|h html]; cbn [length Nat.eqb negb].
  - rewrite ApplyLanguageCodeCorrection_empty.
    destruct code; cbn [length Nat.eqb negb];
      [now rewrite ApplyLanguageCodeCorrection_empty | reflexivity].
  - destruct (ApplyLanguageCodeCorrection trim_whitespace syn (h :: html));
      cbn [length Nat.eqb]; [|reflexivity].
    destruct code; cbn [length Nat.eqb negb];
      [now rewrite ApplyLanguageCodeCorrection_empty | reflexivity].
Qed.

(** X16.  When the html lang attribute corrects to a code,
    [DeterminePageLanguage] does not depend on the Content-Language header:
    any two headers give the same language, outcome and out-parameters.
    When it corrects to nothing, the attribute is as good as absent. *)
Theorem X16_DeterminePageLanguage_ignores_header_under_valid_html_lang :
  forall (trim_whitespace : bool) (ToTranslateLanguageSynonym : str -> str)
         (DetectLanguageOfUnicodeText : list N -> Detection)
         (LanguageCodeWithDialects : Language -> str)
         (ENABLE_LANGUAGE_DETECTION : bool)
         (code code' html_lang : str) (contents : list N),
    (ApplyLanguageCodeCorrection trim_whitespace ToTranslateLanguageSynonym
       html_lang <> [] ->
     DeterminePageLanguage trim_whitespace ToTranslateLanguageSynonym
       DetectLanguageOfUnicodeText LanguageCodeWithDialects
       ENABLE_LANGUAGE_DETECTION code html_lang contents
     = DeterminePageLanguage trim_whitespace ToTranslateLanguageSynonym
         DetectLanguageOfUnicodeText LanguageCodeWithDialects
         ENABLE_LANGUAGE_DETECTION code' html_lang contents)
    /\ (ApplyLanguageCodeCorrection trim_whitespace ToTranslateLanguageSynonym
          html_lang = [] ->
        DeterminePageLanguage trim_whitespace ToTranslateLanguageSynonym
          DetectLanguageOfUnicodeText LanguageCodeWithDialects
          ENABLE_LANGUAGE_DETECTION code html_lang contents
        = DeterminePageLanguage trim_whitespace ToTranslateLanguageSynonym
            DetectLanguageOfUnicodeText LanguageCodeWithDialects
            ENABLE_LANGUAGE_DETECTION code [] contents).
Proof.
  intros trim_whitespace syn detect dialects enable code code' html_lang contents.
  split; intros H; unfold DeterminePageLanguage;
    rewrite !declared_language_cases.
  - destruct (ApplyLanguageCodeCorrection trim_whitespace syn html_lang);
      [congruence | reflexivity].
  - rewrite H, ApplyLanguageCodeCorrection_empty. reflexivity.
Qed.

Lemma X16_witness :
  DeterminePageLanguage true (fun s => s)
    (fun _ => mkDetection (LANGUAGE 0) true 200) (fun _ => lit "fr") true
    (lit "en") (lit "fr-ca") []
  = DeterminePageLanguage true (fun s => s)
      (fun _ => mkDetection (LANGUAGE 0) true 200) (fun _ => lit "fr") true
      (lit "de") (lit "fr-ca") []
  /\ DeterminePageLanguage true (fun s => s)
       (fun _ => mkDetection (LANGUAGE 0) true 200) (fun _ => lit "fr") true
       (lit "en") (lit "x-klingon") []
     = DeterminePageLanguage true (fun s => s)
         (fun _ => mkDetection (LANGUAGE 0) true 200) (fun _ => lit "fr") true
         (lit "en") [] [].
Proof.
  split.
  - apply (proj1 (X16_DeterminePageLanguage_ignores_header_under_valid_html_lang
                    true (fun s => s)
                    (fun _ => mkDetection (LANGUAGE 0) true 200)
                    (fun _ => lit "fr") true
                    (lit "en") (lit "de") (lit "fr-ca") [])).
    vm_compute. discriminate.
  - apply (proj2 (X16_DeterminePageLanguage_ignores_header_under_valid_html_lang
                    true (fun s => s)
                    (fun _ => mkDetection (LANGUAGE 0) true 200)
                    (fun _ => lit "fr") true
                    (lit "en") (lit "en") (lit "x-klingon") [])).
    reflexivity.
Defined.

(** X17.  A verdict of the classifier that is not reliable, rests on fewer
    than 100 bytes or names no language never overrides the page: provided
    the synonym table leaves "und" alone, the declared language is returned
    when there is one (outcome UNKNOWN), "und" otherwise (outcome CLD_ONLY),
    and the reliability flag is handed out as the classifier gave it. *)
Theorem X17_untrusted_verdict_never_overrides_declared_language :
  forall (trim_whitespace : bool) (ToTranslateLanguageSynonym : str -> str)
         (DetectLanguageOfUnicodeText : list N -> Detection)
         (LanguageCodeWithDialects : Language -> str)
         (code html_lang : str) (contents : list N),
    let d := DetectLanguageOfUnicodeText contents in
    let declared :=
      declared_language trim_whitespace ToTranslateLanguageSynonym code html_lang in
    is_reliable_of d = false \/ (text_bytes_of d < 100)%Z
      \/ is_no_result (cld_language_of d) = true ->
    ToTranslateLanguageSynonym kUnknownLanguageCode = kUnknownLanguageCode ->
    DeterminePageLanguage trim_whitespace ToTranslateLanguageSynonym
      DetectLanguageOfUnicodeText LanguageCodeWithDialects true
      code html_lang contents
    = match declared with
      | [] => mkDetermined kUnknownLanguageCode LANGUAGE_VERIFICATION_CLD_ONLY
                (Some kUnknownLanguageCode) (Some (is_reliable_of d))
      | _ :: _ => mkDetermined declared LANGUAGE_VERIFICATION_UNKNOWN
                    (Some kUnknownLanguageCode) (Some (is_reliable_of d))
      end.
Proof.
  intros trim_whitespace syn detect dialects code html_lang contents d declared
         Hbad Hsyn.
  unfold DeterminePageLanguage, DetermineTextLanguage. fold d. fold declared.
  assert (Hcond : is_reliable_of d && (100 <=? text_bytes_of d)%Z
                  && negb (is_no_result (cld_language_of d)) = false).
  { destruct Hbad as [H|[H|H]].
    - now rewrite H.
    - apply Z.leb_gt in H. rewrite H. now rewrite andb_false_r.
    - rewrite H. now rewrite andb_false_r. }
  rewrite Hcond, Hsyn. destruct declared; reflexivity.
Qed.

Lemma X17_witness :
  DeterminePageLanguage true (fun s => s)
    (fun _ => mkDetection (LANGUAGE 0) true 99) (fun _ => lit "es") true
    (lit "en") [] []
  = mkDetermined (lit "en") LANGUAGE_VERIFICATION_UNKNOWN
                 (Some kUnknownLanguageCode) (Some true).
Proof.
  apply (@X17_untrusted_verdict_never_overrides_declared_language
           true (fun s => s) (fun _ => mkDetection (LANGUAGE 0) true 99)
           (fun _ => lit "es") (lit "en") [] []).
  - right. left. simpl. lia.
  - reflexivity.
Defined.

(** X18.  Whatever the inputs, the language returned is the declared one,
    the classifier's code or "und", and the outcome reported says which:
    the declared language for DISABLED, UNKNOWN and AGREE, the classifier's
    code for CLD_ONLY, COMPLEMENT_SUB_CODE and TRUST_CLD, "und" for
    DISAGREE; and the classifier is only ever followed against a declared
    language when that language is "zh" or starts with "en". *)
Theorem X18_outcome_names_the_source_of_the_language :
  forall (trim_whitespace : bool) (ToTranslateLanguageSynonym : str -> str)
         (DetectLanguageOfUnicodeText : list N -> Detection)
         (LanguageCodeWithDialects : Language -> str)
         (ENABLE_LANGUAGE_DETECTION : bool)
         (code html_lang : str) (contents : list N),
    let declared :=
      declared_language trim_whitespace ToTranslateLanguageSynonym code html_lang in
    let classifier :=
      ToTranslateLanguageSynonym
        (fst (DetermineTextLanguage DetectLanguageOfUnicodeText
                LanguageCodeWithDialects contents)) in
    let r := DeterminePageLanguage trim_whitespace ToTranslateLanguageSynonym
               DetectLanguageOfUnicodeText LanguageCodeWithDialects
               ENABLE_LANGUAGE_DETECTION code html_lang contents in
    match verification r with
    | LANGUAGE_VERIFICATION_CLD_DISABLED =>
        ENABLE_LANGUAGE_DETECTION = false /\ page_language r = declared
    | LANGUAGE_VERIFICATION_CLD_ONLY =>
        declared = [] /\ page_language r = classifier
    | LANGUAGE_VERIFICATION_UNKNOWN =>
        declared <> [] /\ classifier = kUnknownLanguageCode
        /\ page_language r = declared
    | LANGUAGE_VERIFICATION_CLD_COMPLEMENT_SUB_CODE =>
        declared = lit "zh" /\ page_language r = classifier
    | LANGUAGE_VERIFICATION_CLD_AGREE =>
        IsSameOrSimilarLanguages declared classifier = true
        /\ page_language r = declared
    | LANGUAGE_VERIFICATION_TRUST_CLD =>
        StartsWithASCII declared (lit "en") false = true
        /\ In classifier kWellKnownCodesOnWrongConfiguration
        /\ page_language r = classifier
    | LANGUAGE_VERIFICATION_CLD_DISAGREE =>
        declared <> [] /\ classifier <> kUnknownLanguageCode
        /\ IsSameOrSimilarLanguages declared classifier = false
        /\ page_language r = kUnknownLanguageCode
    end.
Proof.
  intros trim_whitespace syn detect dialects enable code html_lang contents
         declared classifier r.
  subst r. unfold DeterminePageLanguage. fold declared.
  destruct enable; [|cbn; auto].
  destruct (DetermineTextLanguage detect dialects contents) as [detected reliable] eqn:Hd.
  change (syn detected) with classifier.
  destruct declared as [|c0 rest] eqn:Hdecl; cbn [length Nat.eqb]; [cbn; auto|].
  destruct (str_eqb classifier kUnknownLanguageCode) eqn:Hu.
  { apply str_eqb_eq in Hu. cbn. repeat split; auto. discriminate. }
  destruct (CanCLDComplementSubCode (c0 :: rest) classifier) eqn:Hz.
  { unfold CanCLDComplementSubCode in Hz. apply andb_prop in Hz.
    destruct Hz as [Hz _]. apply str_eqb_eq in Hz. cbn. auto. }
  destruct (IsSameOrSimilarLanguages (c0 :: rest) classifier) eqn:Hs; [cbn; auto|].
  destruct (MaybeServerWrongConfiguration (c0 :: rest) classifier) eqn:Hm.
  { unfold MaybeServerWrongConfiguration in Hm.
    destruct (StartsWithASCII (c0 :: rest) (lit "en") false) eqn:Hen;
      cbn [negb] in Hm; [|discriminate].
    apply existsb_exists in Hm. destruct Hm as (k & Hin & Hk).
    apply str_eqb_eq in Hk. subst k. cbn. auto. }
  cbn. repeat split; auto; try discriminate.
  intros Heq. rewrite Heq in Hu. discriminate.
Qed.

Lemma lower_z c : Ascii.eqb "z" (ToLowerASCII c) = true -> c = "z" \/ c = "Z".
Proof.
  destruct c as [[] [] [] [] [] [] [] []]; vm_compute; intros H;
    try discriminate H; auto.
Qed.

(** X19.  A declared "zh" is completed by the classifier: when the declared
    language is exactly "zh" and the classifier's code starts with "zh-",
    whatever the case, the classifier's code is returned with outcome
    CLD_COMPLEMENT_SUB_CODE, ahead of the agreement of the two codes. *)
Theorem X19_declared_zh_takes_the_classifier_dialect :
  forall (trim_whitespace : bool) (ToTranslateLanguageSynonym : str -> str)
         (DetectLanguageOfUnicodeText : list N -> Detection)
         (LanguageCodeWithDialects : Language -> str)
         (code html_lang : str) (contents : list N),
    let verdict := DetermineTextLanguage DetectLanguageOfUnicodeText
                     LanguageCodeWithDialects contents in
    let classifier := ToTranslateLanguageSynonym (fst verdict) in
    declared_language trim_whitespace ToTranslateLanguageSynonym code html_lang
      = lit "zh" ->
    StartsWithASCII classifier (lit "zh-") false = true ->
    DeterminePageLanguage trim_whitespace ToTranslateLanguageSynonym
      DetectLanguageOfUnicodeText LanguageCodeWithDialects true
      code html_lang contents
    = mkDetermined classifier LANGUAGE_VERIFICATION_CLD_COMPLEMENT_SUB_CODE
                   (Some (fst verdict)) (Some (snd verdict)).
Proof.
  intros trim_whitespace syn detect dialects code html_lang contents
         verdict classifier Hdecl Hzh.
  unfold DeterminePageLanguage. rewrite Hdecl. fold verdict.
  destruct verdict as [detected reliable] eqn:Hv. cbn [fst snd] in *.
  fold classifier.
  assert (Hu : str_eqb classifier kUnknownLanguageCode = false).
  { unfold StartsWithASCII in Hzh.
    destruct classifier as [|c1 cs]; [discriminate|].
    cbn in Hzh. apply andb_prop in Hzh. destruct Hzh as [H1 _].
    apply lower_z in H1. destruct H1 as [-> | ->]; reflexivity. }
  cbn [lit length Nat.eqb]. change (String.list_ascii_of_string "zh") with (lit "zh").
  rewrite Hu. unfold CanCLDComplementSubCode. rewrite Hzh.
  reflexivity.
Qed.

Lemma X19_witness :
  DeterminePageLanguage true (fun s => s)
    (fun _ => mkDetection (LANGUAGE 0) true 200) (fun _ => lit "zh-CN") true
    (lit "zh") [] []
  = mkDetermined (lit "zh-CN") LANGUAGE_VERIFICATION_CLD_COMPLEMENT_SUB_CODE
                 (Some (lit "zh-CN")) (Some true).
Proof.
  apply (@X19_declared_zh_takes_the_classifier_dialect
           true (fun s => s) (fun _ => mkDetection (LANGUAGE 0) true 200)
           (fun _ => lit "zh-CN") (lit "zh") [] []); reflexivity.
Defined.

End LanguageFacts.
